(** * Backoff tokens and the per-session backoff index (src/osd/Session.h)

    A shallow embedding of [struct Backoff] and of the backoff surface of
    [struct Session]: the nested index
    [map<spg_t, map<hobject_t, set<BackoffRef>>>], the atomic counter
    [backoff_count], and the three inline members [have_backoff],
    [add_backoff] and [rm_backoff].

    Tokens live in a shared store and are named by their address
    ([BackoffRef]); the index stores addresses, exactly as the C++ containers
    store intrusive pointers.  Ordered containers are kept as lists in
    strictly increasing key order, so that [lower_bound], iterator stepping
    and in-order iteration can be followed line by line. *)

From Stdlib Require Import ZArith List Bool Lia.
From Stdlib Require String.
Import String.StringSyntax.
Import ListNotations.
Delimit Scope string_scope with string.
Open Scope Z_scope.

(** ** Base types *)

(** Modelled from the spec: [hobject_t] is declared outside this header; the
    index only uses its total order ([cmp], [<], [>], [==]), so keys are taken
    to be integers with their usual order. *)
Definition hobject_t := Z.

(** Modelled from the spec: [spg_t] (the shard id) is declared outside this
    header; it is only used as an ordered map key. *)
Definition spg_t := Z.

(** [cmp(l, r)]: negative, zero or positive. *)
Definition cmp (l r : hobject_t) : Z :=
  match l ?= r with
  | Lt => -1
  | Eq => 0
  | Gt => 1
  end.

(** Addresses of heap objects.  A [BackoffRef] held in a container is never
    null; a nullable pointer is an [option]. *)
Definition BackoffRef := Z.
Definition PGRef := option Z.
Definition SessionRef := option Z.

(** Threads, for [Mutex::is_locked_by_me]. *)
Definition thread_id := Z.

(** Modelled from the spec: [Mutex] comes from common/Mutex.h, which is not
    part of this header.  A mutex is described by the thread that holds it,
    if any; [is_locked_by_me] tells whether the calling thread is the
    holder ("the caller must already hold the token's own lock"). *)
Definition Mutex := option thread_id.

Definition is_locked_by_me (me : thread_id) (m : Mutex) : bool :=
  match m with
  | Some t => t =? me
  | None => false
  end.

(** [std::atomic<int>]: 32-bit two's complement, arithmetic wraps. *)
Definition wrap_int (z : Z) : Z := (z + 2 ^ 31) mod 2 ^ 32 - 2 ^ 31.

(** ** Ordered containers *)

(** [std::set<BackoffRef>]: addresses in strictly increasing order. *)
Module StdSet.

Definition t := list BackoffRef.

Fixpoint sorted (s : t) : bool :=
  match s with
  | [] => true
  | x :: s' => forallb (fun y => x <? y) s' && sorted s'
  end.

(** [find(b) != end()] *)
Fixpoint mem (b : BackoffRef) (s : t) : bool :=
  match s with
  | [] => false
  | x :: s' => (x =? b) || mem b s'
  end.

(** [insert(b)]: no effect when [b] is already an element. *)
Fixpoint insert (b : BackoffRef) (s : t) : t :=
  match s with
  | [] => [b]
  | x :: s' =>
      if b <? x then b :: s
      else if b =? x then s
      else x :: insert b s'
  end.

(** [erase(find(b))] *)
Fixpoint erase (b : BackoffRef) (s : t) : t :=
  match s with
  | [] => []
  | x :: s' => if x =? b then s' else x :: erase b s'
  end.

Definition empty (s : t) : bool :=
  match s with
  | [] => true
  | _ :: _ => false
  end.

End StdSet.

(** [std::map<Z, V>]: bindings in strictly increasing key order.  An iterator
    is a position in the list; [length m] is [end()]. *)
Module StdMap.

Section Ops.
Context {V : Type}.

Definition t := list (Z * V).

Definition keys (m : t) : list Z := map fst m.

Fixpoint find (k : Z) (m : t) : option V :=
  match m with
  | [] => None
  | (k', v) :: m' => if k' =? k then Some v else find k m'
  end.

(** Store [v] under [k], replacing the binding of [k] if there is one. *)
Fixpoint put (k : Z) (v : V) (m : t) : t :=
  match m with
  | [] => [(k, v)]
  | (k', v') :: m' =>
      if k <? k' then (k, v) :: m
      else if k =? k' then (k, v) :: m'
      else (k', v') :: put k v m'
  end.

(** [erase(find(k))] *)
Fixpoint erase (k : Z) (m : t) : t :=
  match m with
  | [] => []
  | (k', v') :: m' => if k' =? k then m' else (k', v') :: erase k m'
  end.

(** [lower_bound(k)]: position of the first binding whose key is not
    less than [k]. *)
Fixpoint lower_bound (k : Z) (m : t) : nat :=
  match m with
  | [] => O
  | (k', _) :: m' => if k' <? k then S (lower_bound k m') else O
  end.

Definition empty (m : t) : bool :=
  match m with
  | [] => true
  | _ :: _ => false
  end.

(** Sum of a measure over the stored values. *)
Definition weight (w : V -> Z) (m : t) : Z :=
  fold_right (fun e n => w (snd e) + n) 0 m.

(** [m[k]] read through a reference: the stored value, or a
    default-constructed one when [operator[]] has to create it. *)
Definition subscript (dflt : V) (k : Z) (m : t) : V :=
  match find k m with
  | Some v => v
  | None => dflt
  end.

End Ops.

Arguments t : clear implicits.

End StdMap.

(** ** Backoff *)

Definition STATE_NEW : Z := 1.
Definition STATE_ACKED : Z := 2.
Definition STATE_DELETING : Z := 3.

Record Backoff := mkBackoff {
  state : Z;
  pgid : spg_t;
  id : Z;
  lock : Mutex;
  pg : PGRef;
  session : SessionRef;
  begin_ : hobject_t;
  end_ : hobject_t
}.

Definition is_new (b : Backoff) : bool := state b =? STATE_NEW.
Definition is_acked (b : Backoff) : bool := state b =? STATE_ACKED.
Definition is_deleting (b : Backoff) : bool := state b =? STATE_DELETING.

(** [get_state_name]: the [switch] over the state value. *)
Definition get_state_name (b : Backoff) : String.string :=
  if state b =? STATE_NEW then "new"%string
  else if state b =? STATE_ACKED then "acked"%string
  else if state b =? STATE_DELETING then "deleting"%string
  else "???"%string.

(** The constructor: [state] and [id] take their member initialisers unless
    the initialiser list overrides them; the mutex starts free. *)
Definition Backoff_new (pgid0 : spg_t) (pg0 : PGRef) (s : SessionRef)
    (i : Z) (b e : hobject_t) : Backoff :=
  {| state := STATE_NEW;
     pgid := pgid0;
     id := i;
     lock := None;
     pg := pg0;
     session := s;
     begin_ := b;
     end_ := e |}.

Definition is_null (r : option Z) : bool :=
  match r with
  | Some _ => false
  | None => true
  end.

(** The NOTE above the owner fields: the owning PG and session are either
    both set, or both null (teardown), or only session is set (and
    state == DELETING). *)
Definition owners_ok (b : Backoff) : bool :=
  (negb (is_null (pg b)) && negb (is_null (session b)))
  || (is_null (pg b) && is_null (session b))
  || (is_null (pg b) && negb (is_null (session b)) && is_deleting b).

(** The store of tokens: reference counting keeps every token that is still
    referenced alive, so every [BackoffRef] in hand can be dereferenced. *)
Definition heap := BackoffRef -> Backoff.

(** The store after the [state] of every token [a] has been set to [st a];
    nothing else changes. *)
Definition with_state (st : BackoffRef -> Z) (h : heap) : heap := fun a =>
  mkBackoff (st a) (pgid (h a)) (id (h a)) (lock (h a)) (pg (h a))
    (session (h a)) (begin_ (h a)) (end_ (h a)).

(** ** Control: assertions and the scoped lock *)

Inductive assertion :=
| Assert_count_matches_index   (* !backoff_count == backoffs.empty() *)
| Assert_locked_by_me          (* b->lock.is_locked_by_me() *)
| Assert_session_is_this.      (* b->session == this *)

(** A call either returns or dies in [ceph_assert]. *)
Inductive outcome (A : Type) :=
| Ret (a : A)
| Abort (site : assertion).

Arguments Ret {A} a.
Arguments Abort {A} site.

(** Modelled from the spec: the [ceph_assert] macro is defined outside this
    header.  A check that fails is fatal: the operation is aborted on the
    spot and nothing after it runs; a check that holds has no effect. *)
Definition ceph_assert {A} (c : bool) (site : assertion) (k : outcome A)
    : outcome A :=
  if c then k else Abort site.

Notation "'assert!' c 'at' site ;; k" := (ceph_assert c site k)
  (at level 10, c at level 0, site at level 0, k at level 200).

Inductive event :=
| Lock_backoff_lock
| Unlock_backoff_lock.

(** Modelled from the spec: [Mutex::Locker] comes from common/Mutex.h.
    [Mutex::Locker l(backoff_lock)] around a body: the lock is taken, and it
    is released when the scope is left by a return; an abort does not unwind
    the stack, so nothing is released. *)
Definition Locker {A} (body : outcome A) : list event * outcome A :=
  match body with
  | Ret a => ([Lock_backoff_lock; Unlock_backoff_lock], Ret a)
  | Abort site => ([Lock_backoff_lock], Abort site)
  end.

(** ** Session *)

Definition index := StdMap.t (StdMap.t StdSet.t).

Record Session := mkSession {
  backoff_count : Z;
  backoffs : index
}.

(** The state a constructed session starts in. *)
Definition Session_new : Session :=
  {| backoff_count := 0; backoffs := [] |}.

(** [!backoff_count == backoffs.empty()] *)
Definition count_matches_index (s : Session) : bool :=
  Bool.eqb (backoff_count s =? 0) (StdMap.empty (backoffs s)).

(** The loop of lines 191-195 over one set, in iteration order. *)
Definition scan (h : heap) (oid : hobject_t) (r : Z) (qs : StdSet.t)
    : option BackoffRef :=
  List.find (fun q => (r =? 0) || (oid <? end_ (h q))) qs.

(** Lines 183-198: the search inside one shard's map. *)
Definition lookup_in_pg (h : heap) (oid : hobject_t)
    (m : StdMap.t StdSet.t) : option BackoffRef :=
  let p := StdMap.lower_bound oid m in
  let p :=
    if negb (Nat.eqb p 0)
       && match nth_error m p with
          | None => true
          | Some (k, _) => k >? oid
          end
    then pred p else p in
  match nth_error m p with
  | None => None
  | Some (k, qs) =>
      let r := cmp oid k in
      if (r =? 0) || (r >? 0) then scan h oid r qs else None
  end.

Definition have_backoff (h : heap) (s : Session) (pgid0 : spg_t)
    (oid : hobject_t) : list event * outcome (option BackoffRef) :=
  if backoff_count s =? 0 then ([], Ret None)
  else
    Locker (
      assert! (count_matches_index s) at Assert_count_matches_index ;;
      match StdMap.find pgid0 (backoffs s) with
      | None => Ret None
      | Some i => Ret (lookup_in_pg h oid i)
      end).

(** [backoffs[b->pgid][b->begin].insert(b)] *)
Definition index_insert (h : heap) (b : BackoffRef) (ix : index) : index :=
  let i := StdMap.subscript [] (pgid (h b)) ix in
  let p := StdMap.subscript [] (begin_ (h b)) i in
  StdMap.put (pgid (h b))
    (StdMap.put (begin_ (h b)) (StdSet.insert b p) i) ix.

Definition add_backoff (h : heap) (s : Session) (b : BackoffRef)
    : list event * outcome Session :=
  Locker (
    assert! (count_matches_index s) at Assert_count_matches_index ;;
    Ret {| backoff_count := wrap_int (backoff_count s + 1);
           backoffs := index_insert h b (backoffs s) |}).

(** Lines 216-233: unlink [b] and prune the buckets it leaves empty. *)
Definition unlink (h : heap) (s : Session) (b : BackoffRef) : Session :=
  match StdMap.find (pgid (h b)) (backoffs s) with
  | None => s
  | Some i =>
      match StdMap.find (begin_ (h b)) i with
      | None => s
      | Some p =>
          if StdSet.mem b p then
            let p' := StdSet.erase b p in
            let i' :=
              if StdSet.empty p' then StdMap.erase (begin_ (h b)) i
              else StdMap.put (begin_ (h b)) p' i in
            {| backoff_count := wrap_int (backoff_count s - 1);
               backoffs :=
                 if StdSet.empty p' && StdMap.empty i'
                 then StdMap.erase (pgid (h b)) (backoffs s)
                 else StdMap.put (pgid (h b)) i' (backoffs s) |}
          else s
      end
  end.

Definition rm_backoff (me : thread_id) (this : Z) (h : heap) (s : Session)
    (b : BackoffRef) : list event * outcome Session :=
  Locker (
    assert! (is_locked_by_me me (lock (h b))) at Assert_locked_by_me ;;
    assert! (match session (h b) with
             | Some a => a =? this
             | None => false
             end) at Assert_session_is_this ;;
    let s' := unlink h s b in
    assert! (count_matches_index s') at Assert_count_matches_index ;;
    Ret s').

(** ** Sequences of calls *)

(** One call on the session.  The store is an argument of every call: tokens
    may change between calls. *)
Inductive call :=
| Call_add (h : heap) (b : BackoffRef)
| Call_rm (me : thread_id) (this : Z) (h : heap) (b : BackoffRef).

Definition do_call (c : call) (s : Session) : list event * outcome Session :=
  match c with
  | Call_add h b => add_backoff h s b
  | Call_rm me this h b => rm_backoff me this h s b
  end.

(** Run the calls in order; an abort ends the run. *)
Fixpoint run (cs : list call) (s : Session) : outcome Session :=
  match cs with
  | [] => Ret s
  | c :: cs' =>
      match snd (do_call c s) with
      | Ret s' => run cs' s'
      | Abort site => Abort site
      end
  end.

(** The store a call sees. *)
Definition call_heap (c : call) : heap :=
  match c with
  | Call_add h _ => h
  | Call_rm _ _ h _ => h
  end.

(** The call sees every token with the [pgid] and [begin] it has in [h]
    (state, lock and owner links may differ). *)
Definition keys_as_in (h : heap) (c : call) : Prop :=
  forall q,
    pgid (call_heap c q) = pgid (h q)
    /\ begin_ (call_heap c q) = begin_ (h q).

Definition is_add (c : call) : bool :=
  match c with
  | Call_add _ _ => true
  | Call_rm _ _ _ _ => false
  end.

Definition count_adds (cs : list call) : Z :=
  Z.of_nat (length (filter is_add cs)).

(** ** Representation invariants and measures of the index *)

Definition map_sorted {V} (m : StdMap.t V) : bool :=
  StdSet.sorted (StdMap.keys m).

(** Every level of the index is in strictly increasing key order. *)
Definition index_sorted (ix : index) : bool :=
  map_sorted ix
  && forallb (fun e =>
       map_sorted (snd e)
       && forallb (fun e' => StdSet.sorted (snd e')) (snd e)) ix.

(** No shard bucket and no start-key bucket is empty. *)
Definition no_empty_buckets (ix : index) : bool :=
  forallb (fun e =>
    negb (StdMap.empty (snd e))
    && forallb (fun e' => negb (StdSet.empty (snd e'))) (snd e)) ix.

(** Every token is filed under its own [pgid] and [begin]. *)
Definition keyed_by_token (h : heap) (ix : index) : bool :=
  forallb (fun e =>
    forallb (fun e' =>
      forallb (fun q =>
        (pgid (h q) =? fst e) && (begin_ (h q) =? fst e')) (snd e'))
      (snd e)) ix.

Definition wf_session (h : heap) (s : Session) : bool :=
  index_sorted (backoffs s)
  && no_empty_buckets (backoffs s)
  && keyed_by_token h (backoffs s)
  && count_matches_index s.

(** Number of tokens stored under one shard, and in the whole index. *)
Definition pg_entries (m : StdMap.t StdSet.t) : Z :=
  StdMap.weight (fun p => Z.of_nat (length p)) m.

Definition entries (ix : index) : Z := StdMap.weight pg_entries ix.

(** Bookkeeping behind the counter: every level of the index is in order, no
    bucket is empty, and the counter is the wrapped value of some [c] that
    lies between the number of stored entries and [n]. *)
Definition counted (n : Z) (s : Session) : Prop :=
  index_sorted (backoffs s) = true
  /\ no_empty_buckets (backoffs s) = true
  /\ exists c, backoff_count s = wrap_int c /\ entries (backoffs s) <= c <= n.

(** The counter is exact: the index is in order and without empty buckets,
    and [backoff_count] is the number of stored tokens, which an [int]
    holds. *)
Definition exact_count (s : Session) : Prop :=
  index_sorted (backoffs s) = true
  /\ no_empty_buckets (backoffs s) = true
  /\ backoff_count s = entries (backoffs s)
  /\ entries (backoffs s) < 2 ^ 31.

(** The set [add_backoff] files [b] in: [backoffs[b->pgid][b->begin]]. *)
Definition bucket (h : heap) (s : Session) (b : BackoffRef) : StdSet.t :=
  StdMap.subscript [] (begin_ (h b))
    (StdMap.subscript [] (pgid (h b)) (backoffs s)).

(** The tokens registered for one shard. *)
Definition tokens_of_pg (s : Session) (pgid0 : spg_t) : list BackoffRef :=
  concat (map snd (StdMap.subscript [] pgid0 (backoffs s))).

(** Is [b] stored in the set [add_backoff] would put it in? *)
Definition registered (h : heap) (s : Session) (b : BackoffRef) : bool :=
  StdSet.mem b
    (StdMap.subscript [] (begin_ (h b))
       (StdMap.subscript [] (pgid (h b)) (backoffs s))).

(** [begin == oid], or [begin <= oid < end]. *)
Definition blocks (h : heap) (oid : hobject_t) (q : BackoffRef) : bool :=
  (begin_ (h q) =? oid)
  || ((begin_ (h q) <=? oid) && (oid <? end_ (h q))).

(** Blocks with different starts do not overlap: the one that starts first
    ends no later than the other starts. *)
Definition no_overlap (h : heap) (qs : list BackoffRef) : bool :=
  forallb (fun q1 =>
    forallb (fun q2 =>
      implb (begin_ (h q1) <? begin_ (h q2))
            (end_ (h q1) <=? begin_ (h q2))) qs) qs.

(** The binding with the greatest key not above [oid], if any. *)
Fixpoint floor_binding {V} (oid : Z) (m : StdMap.t V) : option (Z * V) :=
  match m with
  | [] => None
  | (k, v) :: m' =>
      if k <=? oid then
        match floor_binding oid m' with
        | Some e => Some e
        | None => Some (k, v)
        end
      else None
  end.

(** ** Lifecycle of the owner links *)

(** The owner-link rule as the spec words it: both present, both absent, or
    [Deleting] with exactly one of the two absent. *)
Definition spec_owners_ok (b : Backoff) : bool :=
  (negb (is_null (pg b)) && negb (is_null (session b)))
  || (is_null (pg b) && is_null (session b))
  || (is_deleting b && xorb (is_null (pg b)) (is_null (session b))).

Inductive token_event :=
| Ev_ack                 (* client acknowledges the block *)
| Ev_release (keep : bool) (* the PG clears the backoff *)
| Ev_ack_delete          (* client acknowledges the unblock *)
| Ev_session_teardown (linger : bool). (* the Session goes away *)

(** Modelled from the spec: the paths that change a token's owner links
    ([Session::clear_backoffs], [Session::ack_backoff] and the PG release
    path) are declared or called here but defined elsewhere.  Each event is
    one critical section under the token's lock.  An ack moves [New] to
    [Acked].  A release by the PG moves [New] or [Acked] to [Deleting] and
    drops the PG link; the session link is kept while the client still has to
    acknowledge the unblock, and dropped otherwise.  The ack of the unblock
    finalises the removal.  When the session goes away it clears the session
    pointer; the PG link is either unlinked in the same critical section (the
    header comment, and the spec's description of [clear_backoffs]) or, with
    [linger], stays until the shard removes it, the token being [Deleting]
    meanwhile (the spec's data model: "Deleting with a null shard reference
    and non-null session reference, or vice versa during the other teardown
    path").  Both readings are transitions of the model. *)
Definition token_step (b : Backoff) (ev : token_event) : Backoff :=
  match ev with
  | Ev_ack =>
      if is_new b
      then mkBackoff STATE_ACKED (pgid b) (id b) (lock b) (pg b) (session b)
             (begin_ b) (end_ b)
      else b
  | Ev_release keep =>
      if negb (is_null (pg b)) then
        mkBackoff STATE_DELETING (pgid b) (id b) (lock b) None
          (if keep then session b else None) (begin_ b) (end_ b)
      else b
  | Ev_ack_delete =>
      if is_deleting b
      then mkBackoff (state b) (pgid b) (id b) (lock b) (pg b) None
             (begin_ b) (end_ b)
      else b
  | Ev_session_teardown linger =>
      if linger && negb (is_null (pg b))
      then mkBackoff STATE_DELETING (pgid b) (id b) (lock b) (pg b) None
             (begin_ b) (end_ b)
      else mkBackoff (state b) (pgid b) (id b) (lock b) None None
             (begin_ b) (end_ b)
  end.

(** Does the event leave the PG link behind? *)
Definition lingers (ev : token_event) : bool :=
  match ev with
  | Ev_session_teardown linger => linger
  | _ => false
  end.


(** ** Concrete stores and sessions *)

(** Token 1 blocks [[0, 10)] and token 2 the single key 5, both for shard 7
    of session 100; every other address holds a token for shard 8. *)
Definition heap_overlap : heap := fun a =>
  if a =? 1 then
    mkBackoff STATE_ACKED 7 1 (Some 0) (Some 50) (Some 100) 0 10
  else if a =? 2 then
    mkBackoff STATE_ACKED 7 2 (Some 0) (Some 50) (Some 100) 5 5
  else
    mkBackoff STATE_NEW 8 a (Some 0) (Some 50) (Some 100) a (a + 1).

Definition session_overlap : Session :=
  {| backoff_count := 2; backoffs := [(7, [(0, [1]); (5, [2])])] |}.

(** Tokens 1 and 2 block [[0, 5)] and [[5, 10)] for shard 7. *)
Definition heap_disjoint : heap := fun a =>
  if a =? 1 then
    mkBackoff STATE_ACKED 7 1 (Some 0) (Some 50) (Some 100) 0 5
  else if a =? 2 then
    mkBackoff STATE_DELETING 7 2 (Some 0) None (Some 100) 5 10
  else
    mkBackoff STATE_NEW 8 a (Some 0) (Some 50) (Some 100) a (a + 1).

Definition session_disjoint : Session :=
  {| backoff_count := 2; backoffs := [(7, [(0, [1]); (5, [2])])] |}.

(** The same token added [2^32] times. *)
Definition many_adds : list call :=
  repeat (Call_add heap_overlap 1) (Z.to_nat (2 ^ 32)).

(** Token 1 blocks [[5, 8)] and token 2 the single key 5, both for shard 7:
    two tokens that share one start key. *)
Definition heap_shared_start : heap := fun a =>
  if a =? 1 then
    mkBackoff STATE_ACKED 7 1 (Some 0) (Some 50) (Some 100) 5 8
  else if a =? 2 then
    mkBackoff STATE_NEW 7 2 (Some 0) (Some 50) (Some 100) 5 5
  else
    mkBackoff STATE_NEW 8 a (Some 0) (Some 50) (Some 100) a (a + 1).

(** * Properties *)

(** ** The ordered containers *)

Lemma sorted_cons :
  forall x s,
    StdSet.sorted (x :: s) = true <->
    (forall y, In y s -> x < y) /\ StdSet.sorted s = true.
Proof.
  intros x s. simpl. rewrite andb_true_iff, forallb_forall. split.
  - intros [H1 H2]. split; [|exact H2].
    intros y Hy. apply Z.ltb_lt, H1, Hy.
  - intros [H1 H2]. split; [|exact H2].
    intros y Hy. apply Z.ltb_lt, H1, Hy.
Qed.

Lemma set_mem_In :
  forall b s, StdSet.mem b s = true <-> In b s.
Proof.
  intros b s. induction s as [|x s IH]; simpl.
  - split; [discriminate | tauto].
  - rewrite orb_true_iff, IH, Z.eqb_eq. tauto.
Qed.

Lemma set_insert_In :
  forall b s y, In y (StdSet.insert b s) -> y = b \/ In y s.
Proof.
  intros b s y. induction s as [|x s IH]; simpl.
  - intros [H|[]]; auto.
  - destruct (b <? x); [simpl; intros [H|[H|H]]; auto|].
    destruct (b =? x); [simpl; auto|].
    simpl. intros [H|H]; auto. destruct (IH H); auto.
Qed.

Lemma set_insert_sorted :
  forall b s, StdSet.sorted s = true -> StdSet.sorted (StdSet.insert b s) = true.
Proof.
  intros b s. induction s as [|x s IH]; intros Hs; [reflexivity|].
  pose proof Hs as Hs'. apply sorted_cons in Hs' as [Hlt Hs'].
  cbn [StdSet.insert].
  destruct (Z.ltb_spec b x) as [Hbx|Hbx].
  - apply sorted_cons. split; [|exact Hs].
    intros y [<-|Hy]; [exact Hbx|]. specialize (Hlt y Hy). lia.
  - destruct (Z.eqb_spec b x) as [Heq|Hne]; [exact Hs|].
    apply sorted_cons. split; [|apply IH, Hs'].
    intros y Hy. destruct (set_insert_In _ _ _ Hy) as [->|Hy'];
      [lia | apply Hlt, Hy'].
Qed.

Lemma set_insert_present :
  forall b s,
    StdSet.sorted s = true -> StdSet.mem b s = true -> StdSet.insert b s = s.
Proof.
  intros b s. induction s as [|x s IH]; intros Hs Hm; [discriminate|].
  apply sorted_cons in Hs as [Hlt Hs].
  cbn [StdSet.insert]. simpl in Hm.
  destruct (Z.ltb_spec b x) as [Hbx|Hbx].
  - apply orb_true_iff in Hm as [Hm|Hm]; [apply Z.eqb_eq in Hm; lia|].
    apply set_mem_In in Hm. specialize (Hlt b Hm). lia.
  - destruct (Z.eqb_spec b x) as [Heq|Hne]; [reflexivity|].
    apply orb_true_iff in Hm as [Hm|Hm]; [apply Z.eqb_eq in Hm; lia|].
    now rewrite IH.
Qed.

Lemma set_insert_absent_length :
  forall b s,
    StdSet.mem b s = false ->
    Z.of_nat (length (StdSet.insert b s)) = Z.of_nat (length s) + 1.
Proof.
  intros b s. induction s as [|x s IH]; intros Hm; [reflexivity|].
  simpl in Hm. apply orb_false_iff in Hm as [Hx Hm].
  cbn [StdSet.insert].
  destruct (b <? x); [cbn [length]; lia|].
  rewrite Z.eqb_sym, Hx. cbn [length]. specialize (IH Hm). lia.
Qed.

Lemma set_insert_not_empty :
  forall b s, StdSet.empty (StdSet.insert b s) = false.
Proof.
  intros b [|x s]; [reflexivity|]. cbn [StdSet.insert].
  destruct (b <? x); [reflexivity|]. destruct (b =? x); reflexivity.
Qed.

Lemma set_insert_mem :
  forall b s, StdSet.mem b (StdSet.insert b s) = true.
Proof.
  intros b s. induction s as [|x s IH]; simpl.
  - now rewrite Z.eqb_refl.
  - destruct (b <? x); [simpl; now rewrite Z.eqb_refl|].
    destruct (Z.eqb_spec b x) as [->|Hne]; simpl.
    + now rewrite Z.eqb_refl.
    + rewrite IH. apply orb_true_r.
Qed.

Lemma set_erase_In :
  forall b s y, In y (StdSet.erase b s) -> In y s.
Proof.
  intros b s y. induction s as [|x s IH]; simpl; [tauto|].
  destruct (x =? b); simpl; [auto|]. intros [H|H]; auto.
Qed.

Lemma set_erase_sorted :
  forall b s, StdSet.sorted s = true -> StdSet.sorted (StdSet.erase b s) = true.
Proof.
  intros b s. induction s as [|x s IH]; intros Hs; [reflexivity|].
  apply sorted_cons in Hs as [Hlt Hs]. cbn [StdSet.erase].
  destruct (x =? b); [exact Hs|].
  apply sorted_cons. split; [|apply IH, Hs].
  intros y Hy. apply Hlt, (set_erase_In _ _ _ Hy).
Qed.

Lemma set_erase_present_length :
  forall b s,
    StdSet.mem b s = true ->
    Z.of_nat (length (StdSet.erase b s)) = Z.of_nat (length s) - 1.
Proof.
  intros b s. induction s as [|x s IH]; intros Hm; [discriminate|].
  simpl in Hm. cbn [StdSet.erase].
  destruct (x =? b); [cbn [length]; lia|].
  simpl in Hm. specialize (IH Hm). cbn [length]. lia.
Qed.

Lemma set_erase_absent :
  forall b s, StdSet.mem b s = false -> StdSet.erase b s = s.
Proof.
  intros b s. induction s as [|x s IH]; intros Hm; [reflexivity|].
  simpl in Hm. apply orb_false_iff in Hm as [Hx Hm].
  cbn [StdSet.erase]. rewrite Hx. now rewrite IH.
Qed.

Lemma set_erase_mem :
  forall b s,
    StdSet.sorted s = true -> StdSet.mem b (StdSet.erase b s) = false.
Proof.
  intros b s. induction s as [|x s IH]; intros Hs; [reflexivity|].
  apply sorted_cons in Hs as [Hlt Hs]. cbn [StdSet.erase].
  destruct (Z.eqb_spec x b) as [->|Hne].
  - destruct (StdSet.mem b s) eqn:Hm; [|reflexivity].
    apply set_mem_In in Hm. specialize (Hlt b Hm). lia.
  - simpl. rewrite IH by exact Hs.
    destruct (Z.eqb_spec x b); [contradiction | reflexivity].
Qed.

Section MapFacts.
Context {V : Type}.
Implicit Types (m : StdMap.t V) (k : Z) (v : V).

Lemma map_sorted_cons :
  forall k v m,
    map_sorted ((k, v) :: m) = true <->
    (forall y, In y (StdMap.keys m) -> k < y) /\ map_sorted m = true.
Proof. intros k v m. apply sorted_cons. Qed.

Lemma find_In :
  forall k m v, StdMap.find k m = Some v -> In (k, v) m.
Proof.
  intros k m v. induction m as [|[k' v'] m IH]; simpl; [discriminate|].
  destruct (Z.eqb_spec k' k) as [->|Hne].
  - intros [= ->]. now left.
  - intros H. right. apply IH, H.
Qed.

Lemma find_not_key :
  forall k m, ~ In k (StdMap.keys m) -> StdMap.find k m = None.
Proof.
  intros k m. induction m as [|[k' v'] m IH]; simpl; [reflexivity|].
  intros H. destruct (Z.eqb_spec k' k) as [->|Hne]; [tauto|].
  apply IH. tauto.
Qed.

Lemma In_find :
  forall k m v,
    map_sorted m = true -> In (k, v) m -> StdMap.find k m = Some v.
Proof.
  intros k m v. induction m as [|[k' v'] m IH]; intros Hs Hin; [destruct Hin|].
  apply map_sorted_cons in Hs as [Hlt Hs]. simpl.
  destruct Hin as [[= -> ->]|Hin]; [now rewrite Z.eqb_refl|].
  destruct (Z.eqb_spec k' k) as [->|Hne]; [|apply IH; assumption].
  specialize (Hlt k (in_map fst _ _ Hin)). simpl in Hlt. lia.
Qed.

Lemma put_keys :
  forall k v m y,
    In y (StdMap.keys (StdMap.put k v m)) -> y = k \/ In y (StdMap.keys m).
Proof.
  intros k v m y. induction m as [|[k' v'] m IH]; simpl.
  - intros [H|[]]; auto.
  - destruct (k <? k'); [simpl; intros [H|[H|H]]; auto|].
    destruct (Z.eqb_spec k k') as [->|Hne]; simpl.
    + intros [H|H]; auto.
    + intros [H|H]; auto. destruct (IH H); auto.
Qed.

Lemma put_sorted :
  forall k v m,
    map_sorted m = true -> map_sorted (StdMap.put k v m) = true.
Proof.
  intros k v m.
  induction m as [|[k' v'] m IH]; intros Hs; [reflexivity|].
  pose proof Hs as Hs'. apply map_sorted_cons in Hs' as [Hlt Hs'].
  cbn [StdMap.put].
  destruct (Z.ltb_spec k k') as [Hk|Hk].
  - apply map_sorted_cons. split; [|exact Hs].
    intros y [<-|Hy]; [exact Hk|]. specialize (Hlt y Hy). lia.
  - destruct (Z.eqb_spec k k') as [->|Hne].
    + apply map_sorted_cons. split; assumption.
    + apply map_sorted_cons. split; [|apply IH, Hs'].
      intros y Hy. destruct (put_keys _ _ _ _ Hy) as [->|Hy'];
        [simpl; lia | apply Hlt, Hy'].
Qed.

Lemma erase_keys :
  forall k m y, In y (StdMap.keys (StdMap.erase k m)) -> In y (StdMap.keys m).
Proof.
  intros k m y. induction m as [|[k' v'] m IH]; simpl; [tauto|].
  destruct (k' =? k); simpl; [auto|]. intros [H|H]; auto.
Qed.

Lemma erase_sorted :
  forall k m, map_sorted m = true -> map_sorted (StdMap.erase k m) = true.
Proof.
  intros k m.
  induction m as [|[k' v'] m IH]; intros Hs; [reflexivity|].
  apply map_sorted_cons in Hs as [Hlt Hs]. cbn [StdMap.erase].
  destruct (k' =? k); [exact Hs|].
  apply map_sorted_cons. split; [|apply IH, Hs].
  intros y Hy. apply Hlt, (erase_keys _ _ _ Hy).
Qed.

Lemma find_put_same :
  forall k v m, StdMap.find k (StdMap.put k v m) = Some v.
Proof.
  intros k v m. induction m as [|[k' v'] m IH]; simpl.
  - now rewrite Z.eqb_refl.
  - destruct (k <? k'); [simpl; now rewrite Z.eqb_refl|].
    destruct (Z.eqb_spec k k') as [->|Hne]; simpl.
    + now rewrite Z.eqb_refl.
    + destruct (Z.eqb_spec k' k); [congruence | exact IH].
Qed.

Lemma find_erase_same :
  forall k m, map_sorted m = true -> StdMap.find k (StdMap.erase k m) = None.
Proof.
  intros k m. induction m as [|[k' v'] m IH]; intros Hs; [reflexivity|].
  apply map_sorted_cons in Hs as [Hlt Hs]. cbn [StdMap.erase].
  destruct (Z.eqb_spec k' k) as [->|Hne].
  - apply find_not_key. intros Hin. specialize (Hlt k Hin). lia.
  - simpl. destruct (Z.eqb_spec k' k); [contradiction | apply IH, Hs].
Qed.

Lemma put_same :
  forall k v m,
    map_sorted m = true -> StdMap.find k m = Some v -> StdMap.put k v m = m.
Proof.
  intros k v m. induction m as [|[k' v'] m IH]; intros Hs Hf; [discriminate|].
  apply map_sorted_cons in Hs as [Hlt Hs]. simpl in Hf. cbn [StdMap.put].
  destruct (Z.eqb_spec k' k) as [->|Hne].
  - injection Hf as ->. now rewrite Z.ltb_irrefl, Z.eqb_refl.
  - destruct (Z.ltb_spec k k') as [Hk|Hk].
    + apply find_In in Hf. specialize (Hlt k (in_map fst _ _ Hf)).
      simpl in Hlt. lia.
    + destruct (Z.eqb_spec k k'); [congruence|]. now rewrite IH.
Qed.

Lemma put_not_empty :
  forall k v m, StdMap.empty (StdMap.put k v m) = false.
Proof.
  intros k v [|[k' v'] m]; [reflexivity|]. cbn [StdMap.put].
  destruct (k <? k'); [reflexivity|]. destruct (k =? k'); reflexivity.
Qed.

Lemma put_forallb :
  forall (P : Z * V -> bool) k v m,
    P (k, v) = true -> forallb P m = true ->
    forallb P (StdMap.put k v m) = true.
Proof.
  intros P k v m Hv. induction m as [|[k' v'] m IH]; simpl.
  - now rewrite Hv.
  - intros H. apply andb_true_iff in H as [H1 H2].
    destruct (k <? k'); [simpl; now rewrite Hv, H1, H2|].
    destruct (k =? k'); simpl; [now rewrite Hv, H2|].
    now rewrite H1, IH.
Qed.

Lemma erase_forallb :
  forall (P : Z * V -> bool) k m,
    forallb P m = true -> forallb P (StdMap.erase k m) = true.
Proof.
  intros P k m. induction m as [|[k' v'] m IH]; simpl; [auto|].
  intros H. apply andb_true_iff in H as [H1 H2].
  destruct (k' =? k); [exact H2|]. simpl. now rewrite H1, IH.
Qed.

Lemma find_forallb :
  forall (P : Z * V -> bool) k v m,
    forallb P m = true -> StdMap.find k m = Some v -> P (k, v) = true.
Proof.
  intros P k v m H Hf. apply find_In in Hf.
  rewrite forallb_forall in H. apply (H _ Hf).
Qed.

Lemma weight_put :
  forall (w : V -> Z) k v m,
    map_sorted m = true ->
    StdMap.weight w (StdMap.put k v m)
    = StdMap.weight w m
      - match StdMap.find k m with Some v0 => w v0 | None => 0 end
      + w v.
Proof.
  intros w k v m. induction m as [|[k' v'] m IH]; intros Hs; simpl; [lia|].
  apply map_sorted_cons in Hs as [Hlt Hs].
  destruct (Z.ltb_spec k k') as [Hk|Hk].
  - destruct (Z.eqb_spec k' k); [lia|].
    rewrite find_not_key; [simpl; lia|].
    intros Hin. specialize (Hlt k Hin). simpl in Hlt. lia.
  - destruct (Z.eqb_spec k k') as [->|Hne].
    + rewrite Z.eqb_refl. simpl. lia.
    + destruct (Z.eqb_spec k' k); [congruence|].
      simpl. rewrite IH by exact Hs. lia.
Qed.

Lemma weight_erase :
  forall (w : V -> Z) k m,
    StdMap.weight w (StdMap.erase k m)
    = StdMap.weight w m
      - match StdMap.find k m with Some v0 => w v0 | None => 0 end.
Proof.
  intros w k m. induction m as [|[k' v'] m IH]; simpl; [lia|].
  destruct (k' =? k); simpl; [lia|]. rewrite IH. lia.
Qed.

Lemma weight_nonneg :
  forall (w : V -> Z) m,
    (forall v, 0 <= w v) -> 0 <= StdMap.weight w m.
Proof.
  intros w m Hw. induction m as [|[k' v'] m IH]; simpl; [lia|].
  specialize (Hw v'). lia.
Qed.

Lemma weight_positive :
  forall (w : V -> Z) m,
    (forall v, 0 <= w v) ->
    StdMap.empty m = false ->
    forallb (fun e => 0 <? w (snd e)) m = true ->
    0 < StdMap.weight w m.
Proof.
  intros w [|[k v] m] Hw He Hp; [discriminate|]. simpl in *.
  apply andb_true_iff in Hp as [Hp _]. apply Z.ltb_lt in Hp.
  pose proof (weight_nonneg w m Hw). unfold StdMap.weight in *. lia.
Qed.

End MapFacts.

(** ** The nested index *)

(** Container types are abbreviations of list types; unfolding them makes
    terms that differ only in the spelling of a type identical. *)
Ltac same_types :=
  unfold index, StdMap.t, StdSet.t, BackoffRef, hobject_t, spg_t in *.

Lemma index_sorted_outer :
  forall ix, index_sorted ix = true -> map_sorted ix = true.
Proof.
  intros ix H. unfold index_sorted in H. now apply andb_true_iff in H.
Qed.

Lemma index_sorted_find :
  forall ix pgid0 i,
    index_sorted ix = true -> StdMap.find pgid0 ix = Some i ->
    map_sorted i = true
    /\ forallb (fun e' => StdSet.sorted (snd e')) i = true.
Proof.
  intros ix pgid0 i H Hf. unfold index_sorted in H.
  apply andb_true_iff in H as [_ H].
  apply (find_forallb _ _ _ _ H) in Hf. simpl in Hf.
  now apply andb_true_iff in Hf.
Qed.

Lemma sets_sorted_find :
  forall (i : StdMap.t StdSet.t) k p,
    forallb (fun e' => StdSet.sorted (snd e')) i = true ->
    StdMap.find k i = Some p -> StdSet.sorted p = true.
Proof.
  intros i k p H Hf. apply (find_forallb _ _ _ _ H Hf).
Qed.

Lemma index_sorted_put :
  forall ix pgid0 i,
    index_sorted ix = true ->
    map_sorted i = true ->
    forallb (fun e' => StdSet.sorted (snd e')) i = true ->
    index_sorted (StdMap.put pgid0 i ix) = true.
Proof.
  intros ix pgid0 i H Hi Hp. unfold index_sorted in *.
  apply andb_true_iff in H as [H1 H2]. apply andb_true_iff. split.
  - apply put_sorted, H1.
  - apply put_forallb; [simpl; now rewrite Hi, Hp | exact H2].
Qed.

Lemma index_sorted_erase :
  forall ix pgid0,
    index_sorted ix = true -> index_sorted (StdMap.erase pgid0 ix) = true.
Proof.
  intros ix pgid0 H. unfold index_sorted in *.
  apply andb_true_iff in H as [H1 H2]. apply andb_true_iff. split.
  - apply erase_sorted, H1.
  - apply erase_forallb, H2.
Qed.

Lemma subscript_pg_sorted :
  forall ix pgid0,
    index_sorted ix = true ->
    map_sorted (StdMap.subscript [] pgid0 ix) = true
    /\ forallb (fun e' => StdSet.sorted (snd e'))
         (StdMap.subscript [] pgid0 ix) = true.
Proof.
  intros ix pgid0 H. unfold StdMap.subscript.
  destruct (StdMap.find _ _) as [i|] eqn:Hf; [|split; reflexivity].
  apply (index_sorted_find _ _ _ H Hf).
Qed.

Lemma subscript_set_sorted :
  forall (i : StdMap.t StdSet.t) k,
    forallb (fun e' => StdSet.sorted (snd e')) i = true ->
    StdSet.sorted (StdMap.subscript [] k i) = true.
Proof.
  intros i k H. unfold StdMap.subscript.
  destruct (StdMap.find _ _) as [p|] eqn:Hf; [|reflexivity].
  apply (sets_sorted_find _ _ _ H Hf).
Qed.

Lemma weight_put_subscript :
  forall {V} (w : V -> Z) (d : V) k v (m : StdMap.t V),
    w d = 0 ->
    map_sorted m = true ->
    StdMap.weight w (StdMap.put k v m)
    = StdMap.weight w m - w (StdMap.subscript d k m) + w v.
Proof.
  intros V w d k v m Hd Hs. rewrite weight_put by exact Hs.
  unfold StdMap.subscript. destruct (StdMap.find k m); [reflexivity|].
  now rewrite Hd.
Qed.

Lemma pg_entries_put :
  forall k p (i : StdMap.t StdSet.t),
    map_sorted i = true ->
    pg_entries (StdMap.put k p i)
    = pg_entries i - Z.of_nat (length (StdMap.subscript [] k i))
      + Z.of_nat (length p).
Proof.
  intros k p i Hi.
  exact (weight_put_subscript (fun p : StdSet.t => Z.of_nat (length p))
           [] k p i eq_refl Hi).
Qed.

Lemma index_insert_sorted :
  forall h b ix,
    index_sorted ix = true -> index_sorted (index_insert h b ix) = true.
Proof.
  intros h b ix H. unfold index_insert.
  destruct (subscript_pg_sorted ix (pgid (h b)) H) as [Hi Hp].
  apply index_sorted_put; [exact H | apply put_sorted, Hi |].
  apply put_forallb; [|exact Hp]. simpl.
  apply set_insert_sorted, subscript_set_sorted, Hp.
Qed.

Lemma index_insert_no_empty :
  forall h b ix,
    no_empty_buckets ix = true ->
    no_empty_buckets (index_insert h b ix) = true.
Proof.
  intros h b ix H. unfold index_insert, no_empty_buckets in *.
  apply put_forallb; [|exact H]. simpl.
  rewrite put_not_empty. simpl.
  apply put_forallb; [simpl; now rewrite set_insert_not_empty|].
  unfold StdMap.subscript.
  destruct (StdMap.find (pgid (h b)) _) as [i|] eqn:Hf; [|reflexivity].
  apply (find_forallb _ _ _ _ H) in Hf. simpl in Hf.
  now apply andb_true_iff in Hf.
Qed.

Lemma index_insert_entries :
  forall h b ix,
    index_sorted ix = true ->
    entries (index_insert h b ix)
    = entries ix
      + Z.of_nat (length (StdSet.insert b
           (StdMap.subscript [] (begin_ (h b))
              (StdMap.subscript [] (pgid (h b)) ix))))
      - Z.of_nat (length
           (StdMap.subscript [] (begin_ (h b))
              (StdMap.subscript [] (pgid (h b)) ix))).
Proof.
  intros h b ix H. unfold index_insert, entries.
  destruct (subscript_pg_sorted ix (pgid (h b)) H) as [Hi Hp].
  rewrite (weight_put_subscript pg_entries [])
    by (reflexivity || apply index_sorted_outer, H).
  rewrite pg_entries_put by exact Hi. same_types. lia.
Qed.

Lemma index_insert_present :
  forall h b ix,
    index_sorted ix = true ->
    StdSet.mem b
      (StdMap.subscript [] (begin_ (h b))
         (StdMap.subscript [] (pgid (h b)) ix)) = true ->
    index_insert h b ix = ix.
Proof.
  intros h b ix H Hm. unfold index_insert.
  unfold StdMap.subscript in *.
  destruct (StdMap.find (pgid (h b)) _) as [i|] eqn:Hf; [|discriminate].
  destruct (index_sorted_find _ _ _ H Hf) as [Hi Hp].
  destruct (StdMap.find (begin_ (h b)) _) as [p|] eqn:Hg; [|discriminate].
  rewrite set_insert_present
    by (exact Hm || apply (sets_sorted_find _ _ _ Hp Hg)).
  rewrite (put_same _ _ _ Hi Hg).
  apply put_same; [apply index_sorted_outer, H | exact Hf].
Qed.

Lemma subscript_find :
  forall {V} (d : V) k (m : StdMap.t V) v,
    StdMap.find k m = Some v -> StdMap.subscript d k m = v.
Proof. intros V d k m v H. unfold StdMap.subscript. now rewrite H. Qed.

Lemma registered_find :
  forall h s b,
    registered h s b = true ->
    exists i p,
      StdMap.find (pgid (h b)) (backoffs s) = Some i
      /\ StdMap.find (begin_ (h b)) i = Some p
      /\ StdSet.mem b p = true.
Proof.
  intros h s b. unfold registered, StdMap.subscript.
  destruct (StdMap.find (pgid (h b)) _) as [i|]; [|discriminate].
  destruct (StdMap.find (begin_ (h b)) _) as [p|] eqn:Hp; [|discriminate].
  intros Hm. exists i, p. auto.
Qed.

Lemma unlink_unregistered :
  forall h s b, registered h s b = false -> unlink h s b = s.
Proof.
  intros h s b. unfold registered, unlink, StdMap.subscript.
  destruct (StdMap.find (pgid (h b)) _) as [i|]; [|reflexivity].
  destruct (StdMap.find (begin_ (h b)) _) as [p|]; [|reflexivity].
  intros ->. reflexivity.
Qed.

Lemma unlink_count :
  forall h s b,
    backoff_count (unlink h s b)
    = if registered h s b then wrap_int (backoff_count s - 1)
      else backoff_count s.
Proof.
  intros h s b. destruct (registered h s b) eqn:Hr.
  - destruct (registered_find _ _ _ Hr) as (i & p & Hi & Hp & Hm).
    unfold unlink. same_types. now rewrite Hi, Hp, Hm.
  - now rewrite unlink_unregistered.
Qed.

Lemma unlink_sorted :
  forall h s b,
    index_sorted (backoffs s) = true ->
    index_sorted (backoffs (unlink h s b)) = true.
Proof.
  intros h s b H. destruct (registered h s b) eqn:Hr;
    [|now rewrite unlink_unregistered].
  destruct (registered_find _ _ _ Hr) as (i & p & Hi & Hp & Hm).
  destruct (index_sorted_find _ _ _ H Hi) as [Hsi Hsp].
  unfold unlink. same_types. rewrite Hi, Hp, Hm. simpl.
  destruct (StdSet.empty (StdSet.erase b p)) eqn:He; simpl.
  - destruct (StdMap.empty (StdMap.erase (begin_ (h b)) i)).
    + apply index_sorted_erase, H.
    + apply index_sorted_put;
        [exact H | apply erase_sorted, Hsi | apply erase_forallb, Hsp].
  - apply index_sorted_put; [exact H | apply put_sorted, Hsi |].
    apply put_forallb; [|exact Hsp]. simpl.
    apply set_erase_sorted, (sets_sorted_find _ _ _ Hsp Hp).
Qed.

Lemma unlink_no_empty :
  forall h s b,
    no_empty_buckets (backoffs s) = true ->
    no_empty_buckets (backoffs (unlink h s b)) = true.
Proof.
  intros h s b H. destruct (registered h s b) eqn:Hr;
    [|now rewrite unlink_unregistered].
  destruct (registered_find _ _ _ Hr) as (i & p & Hi & Hp & Hm).
  pose proof (find_forallb _ _ _ _ H Hi) as Hne. simpl in Hne.
  apply andb_true_iff in Hne as [_ Hne].
  unfold unlink. same_types. rewrite Hi, Hp, Hm. simpl.
  unfold no_empty_buckets in *.
  destruct (StdSet.empty (StdSet.erase b p)) eqn:He; simpl.
  - destruct (StdMap.empty (StdMap.erase (begin_ (h b)) i)) eqn:Hei.
    + apply erase_forallb, H.
    + apply put_forallb; [|exact H]. simpl. same_types. rewrite Hei. simpl.
      apply erase_forallb, Hne.
  - apply put_forallb; [|exact H]. simpl. rewrite put_not_empty. simpl.
    apply put_forallb; [simpl; now rewrite He | exact Hne].
Qed.

Lemma unlink_entries :
  forall h s b,
    index_sorted (backoffs s) = true ->
    entries (backoffs (unlink h s b))
    = entries (backoffs s) - (if registered h s b then 1 else 0).
Proof.
  intros h s b H. destruct (registered h s b) eqn:Hr;
    [|rewrite unlink_unregistered by exact Hr; lia].
  destruct (registered_find _ _ _ Hr) as (i & p & Hi & Hp & Hm).
  destruct (index_sorted_find _ _ _ H Hi) as [Hsi Hsp].
  pose proof (set_erase_present_length _ _ Hm) as Hlen.
  pose proof (index_sorted_outer _ H) as Hso.
  unfold unlink. same_types. rewrite Hi, Hp, Hm. simpl.
  destruct (StdSet.erase b p) as [|x p'] eqn:He; simpl.
  - assert (Hw : pg_entries (StdMap.erase (begin_ (h b)) i)
                 = pg_entries i - 1).
    { unfold pg_entries. rewrite weight_erase. same_types.
      rewrite Hp. simpl in Hlen. lia. }
    destruct (StdMap.erase (begin_ (h b)) i) as [|e i'] eqn:Hei; simpl.
    + unfold entries. rewrite weight_erase. same_types. rewrite Hi.
      change (pg_entries []) with 0 in Hw. lia.
    + unfold entries.
      rewrite (weight_put pg_entries) by exact Hso.
      same_types. rewrite Hi. lia.
  - unfold entries. rewrite (weight_put pg_entries) by exact Hso.
    same_types. rewrite Hi.
    rewrite pg_entries_put by exact Hsi.
    rewrite (subscript_find _ _ _ _ Hp). same_types. cbn [length] in *. lia.
Qed.

Lemma unlink_unregisters :
  forall h s b,
    index_sorted (backoffs s) = true ->
    registered h (unlink h s b) b = false.
Proof.
  intros h s b H. destruct (registered h s b) eqn:Hr;
    [|now rewrite unlink_unregistered].
  destruct (registered_find _ _ _ Hr) as (i & p & Hi & Hp & Hm).
  destruct (index_sorted_find _ _ _ H Hi) as [Hsi Hsp].
  pose proof (index_sorted_outer _ H) as Hso.
  unfold unlink. same_types. rewrite Hi, Hp, Hm.
  unfold registered, StdMap.subscript. simpl.
  destruct (StdSet.empty (StdSet.erase b p)) eqn:He; simpl.
  - destruct (StdMap.empty (StdMap.erase (begin_ (h b)) i)).
    + now rewrite find_erase_same.
    + rewrite find_put_same. now rewrite find_erase_same.
  - rewrite !find_put_same.
    apply set_erase_mem, (sets_sorted_find _ _ _ Hsp Hp).
Qed.

(** ** Lookup: the fast path and what the lookup reads *)

(** C8: when [backoff_count] reads zero, [have_backoff] returns null at once
    and never takes [backoff_lock], whatever the shard id and key. *)
Theorem have_backoff_fast_path :
  forall h s pgid0 oid,
    backoff_count s = 0 ->
    have_backoff h s pgid0 oid = ([], Ret None).
Proof.
  intros h s pgid0 oid Hc. unfold have_backoff. now rewrite Hc.
Qed.

Lemma have_backoff_fast_path_witness :
  backoff_count Session_new = 0
  /\ have_backoff heap_overlap Session_new 7 3 = ([], Ret None).
Proof.
  split; [reflexivity | apply have_backoff_fast_path; reflexivity].
Defined.

Lemma scan_ext :
  forall h h' oid r qs,
    (forall q, end_ (h' q) = end_ (h q)) ->
    scan h' oid r qs = scan h oid r qs.
Proof.
  intros h h' oid r qs He. unfold scan.
  induction qs as [|q qs IH]; simpl; [reflexivity|].
  rewrite He, IH. reflexivity.
Qed.

Lemma lookup_in_pg_ext :
  forall h h' oid m,
    (forall q, end_ (h' q) = end_ (h q)) ->
    lookup_in_pg h' oid m = lookup_in_pg h oid m.
Proof.
  intros h h' oid m He. unfold lookup_in_pg.
  destruct (nth_error m _) as [[k qs]|]; [|reflexivity].
  now rewrite (scan_ext h h' _ _ _ He).
Qed.

Lemma have_backoff_reads_end_only :
  forall h h' s pgid0 oid,
    (forall q, end_ (h' q) = end_ (h q)) ->
    have_backoff h' s pgid0 oid = have_backoff h s pgid0 oid.
Proof.
  intros h h' s pgid0 oid He. unfold have_backoff.
  destruct (backoff_count s =? 0); [reflexivity|].
  destruct (count_matches_index s); simpl; [|reflexivity].
  destruct (StdMap.find pgid0 (backoffs s)) as [i|]; [|reflexivity].
  now rewrite (lookup_in_pg_ext h h' _ _ He).
Qed.

(** C10: the lookup never reads a token's state.  Setting the states of the
    tokens to anything at all (Deleting, New, Acked) changes neither the
    token the lookup returns nor its lock events: a registered token is
    matched by shard id and range alone. *)
Theorem have_backoff_ignores_state :
  forall st h s pgid0 oid,
    have_backoff (with_state st h) s pgid0 oid = have_backoff h s pgid0 oid.
Proof.
  intros st h s pgid0 oid.
  apply have_backoff_reads_end_only. intro q. reflexivity.
Qed.

Example have_backoff_returns_deleting_token :
  have_backoff heap_disjoint session_disjoint 7 6
  = ([Lock_backoff_lock; Unlock_backoff_lock], Ret (Some 2))
  /\ is_deleting (heap_disjoint 2) = true
  /\ have_backoff (with_state (fun _ => STATE_ACKED) heap_disjoint)
       session_disjoint 7 6
     = ([Lock_backoff_lock; Unlock_backoff_lock], Ret (Some 2)).
Proof. repeat split. Qed.

(** ** Construction of a token *)

(** C5 (as stated, refuted): the constructor takes null owners without
    complaint; the token it builds is in state New and detached. *)
Lemma Backoff_new_detached :
  is_new (Backoff_new 7 None None 1 0 10) = true
  /\ pg (Backoff_new 7 None None 1 0 10) = None
  /\ session (Backoff_new 7 None None 1 0 10) = None.
Proof. repeat split. Qed.

(** C5 (amended): every construction yields a token in state New with the
    given shard id, id and range, a free lock, and exactly the two owner
    references it was passed; the constructor checks neither, so the token is
    attached to both owners exactly when both arguments are non-null. *)
Theorem Backoff_new_fields :
  forall pgid0 pg0 s i b e,
    let t := Backoff_new pgid0 pg0 s i b e in
    state t = STATE_NEW /\ is_new t = true
    /\ pgid t = pgid0 /\ id t = i
    /\ begin_ t = b /\ end_ t = e
    /\ lock t = None
    /\ pg t = pg0 /\ session t = s
    /\ (negb (is_null (pg t)) && negb (is_null (session t))
        = negb (is_null pg0) && negb (is_null s)).
Proof. intros. subst t. repeat split. Qed.

(** ** Preconditions of [rm_backoff] *)

(** C7: [rm_backoff] dies in its first assertion when the caller does not
    hold the token's lock, and in its second when the token's session is not
    this session; the index is not touched in either case.  When both hold,
    neither assertion fires and the call goes on to unlink the token. *)
Theorem rm_backoff_preconditions :
  forall me this h s b,
    (is_locked_by_me me (lock (h b)) = false ->
     rm_backoff me this h s b
     = ([Lock_backoff_lock], Abort Assert_locked_by_me))
    /\ (is_locked_by_me me (lock (h b)) = true ->
        session (h b) <> Some this ->
        rm_backoff me this h s b
        = ([Lock_backoff_lock], Abort Assert_session_is_this))
    /\ (is_locked_by_me me (lock (h b)) = true ->
        session (h b) = Some this ->
        rm_backoff me this h s b
        = Locker (assert! (count_matches_index (unlink h s b))
                    at Assert_count_matches_index ;; Ret (unlink h s b))
        /\ snd (rm_backoff me this h s b) <> Abort Assert_locked_by_me
        /\ snd (rm_backoff me this h s b) <> Abort Assert_session_is_this).
Proof.
  intros me this h s b. unfold rm_backoff. split; [|split].
  - intros Hl. now rewrite Hl.
  - intros Hl Hs. rewrite Hl. simpl.
    destruct (session (h b)) as [a|]; [|reflexivity].
    destruct (Z.eqb_spec a this); [congruence | reflexivity].
  - intros Hl Hs. rewrite Hl, Hs, Z.eqb_refl. simpl.
    split; [reflexivity|].
    destruct (count_matches_index _); simpl; split; discriminate.
Qed.

Lemma rm_backoff_preconditions_witness :
  rm_backoff 1 100 heap_disjoint session_disjoint 1
  = ([Lock_backoff_lock], Abort Assert_locked_by_me)
  /\ rm_backoff 0 101 heap_disjoint session_disjoint 1
     = ([Lock_backoff_lock], Abort Assert_session_is_this)
  /\ rm_backoff 0 100 heap_disjoint session_disjoint 1
     = ([Lock_backoff_lock; Unlock_backoff_lock],
        Ret {| backoff_count := 1; backoffs := [(7, [(5, [2])])] |}).
Proof.
  destruct (rm_backoff_preconditions 1 100 heap_disjoint session_disjoint 1)
    as [H1 _].
  destruct (rm_backoff_preconditions 0 101 heap_disjoint session_disjoint 1)
    as [_ [H2 _]].
  destruct (rm_backoff_preconditions 0 100 heap_disjoint session_disjoint 1)
    as [_ [_ H3]].
  split; [apply H1; reflexivity|].
  split; [apply H2; [reflexivity | discriminate]|].
  destruct (H3 eq_refl eq_refl) as [H _]. rewrite H. reflexivity.
Defined.

(** ** Owner links of a token *)

Lemma owners_ok_spec_owners_ok :
  forall b, owners_ok b = true -> spec_owners_ok b = true.
Proof.
  intros b. unfold owners_ok, spec_owners_ok.
  destruct (pg b), (session b), (is_deleting b); simpl; auto.
Qed.



(** When no teardown leaves the PG link behind, the stricter rule of the NOTE
    above the owner fields holds along the history as well. *)
Lemma token_step_owners_ok :
  forall b ev,
    lingers ev = false ->
    owners_ok b = true /\ (is_deleting b = true -> is_null (pg b) = true) ->
    owners_ok (token_step b ev) = true
    /\ (is_deleting (token_step b ev) = true ->
        is_null (pg (token_step b ev)) = true).
Proof.
  intros [st pgid0 i l p s b e] ev Hl [Hok Hdel].
  unfold token_step, owners_ok, is_deleting, is_new in *; simpl in *.
  destruct ev as [| keep | | linger]; simpl in *.
  - destruct (st =? STATE_NEW) eqn:E; simpl; [|split; assumption].
    apply Z.eqb_eq in E. subst st.
    destruct p, s; simpl in *; split; auto; discriminate.
  - destruct p as [p|]; simpl; [|split; assumption].
    destruct keep, s; simpl; split; reflexivity.
  - destruct (st =? STATE_DELETING) eqn:E; simpl.
    + rewrite ?E. specialize (Hdel eq_refl).
      destruct p, s; simpl in *; split; auto; discriminate.
    + rewrite ?E. split; assumption.
  - subst linger. simpl. split; reflexivity.
Qed.

Lemma fold_token_step_owners_ok :
  forall evs b,
    existsb lingers evs = false ->
    owners_ok b = true /\ (is_deleting b = true -> is_null (pg b) = true) ->
    owners_ok (fold_left token_step evs b) = true.
Proof.
  induction evs as [|ev evs IH]; intros b Hl Hb; simpl; [apply Hb|].
  simpl in Hl. apply orb_false_iff in Hl as [Hev Hl].
  apply IH; [exact Hl|].
  apply token_step_owners_ok; assumption.
Qed.

(** The NOTE's rule along every history in which each session teardown
    unlinks the PG in the same critical section. *)
Lemma atomic_teardown_owners_ok :
  forall pgid0 pg0 s0 i b e evs,
    existsb lingers evs = false ->
    owners_ok (fold_left token_step evs
                 (Backoff_new pgid0 (Some pg0) (Some s0) i b e)) = true.
Proof.
  intros pgid0 pg0 s0 i b e evs Hl.
  apply fold_token_step_owners_ok; [exact Hl|].
  split; [reflexivity | discriminate].
Qed.



(** ** The counter *)

Ltac wrap_arith :=
  unfold wrap_int in *;
  change (2 ^ 32) with 4294967296 in *;
  change (2 ^ 31) with 2147483648 in *;
  Z.div_mod_to_equations; lia.

Lemma wrap_int_add :
  forall a b, wrap_int (wrap_int a + b) = wrap_int (a + b).
Proof. intros a b. wrap_arith. Qed.

Lemma wrap_int_nonzero :
  forall c, 0 < c < 2 ^ 32 -> wrap_int c <> 0.
Proof. intros c H. wrap_arith. Qed.

Lemma wrap_int_succ_neq :
  forall c, wrap_int (c + 1) <> c.
Proof. intros c. wrap_arith. Qed.

Lemma wrap_int_small :
  forall c, - 2 ^ 31 <= c < 2 ^ 31 -> wrap_int c = c.
Proof. intros c H. wrap_arith. Qed.

Lemma entries_nonneg : forall ix, 0 <= entries ix.
Proof.
  intros ix. apply weight_nonneg. intros m.
  apply weight_nonneg. intros p. lia.
Qed.

Lemma entries_positive :
  forall ix,
    no_empty_buckets ix = true -> StdMap.empty ix = false -> 0 < entries ix.
Proof.
  intros ix Hne He. apply weight_positive; [| exact He |].
  - intros m. apply weight_nonneg. intros p. lia.
  - unfold no_empty_buckets in Hne. rewrite forallb_forall in *.
    intros [k m] Hin. specialize (Hne _ Hin). simpl in *.
    apply andb_true_iff in Hne as [Hm Hp]. apply Z.ltb_lt.
    apply weight_positive; [intros p; lia | now destruct m |].
    rewrite forallb_forall in *. intros [k' p] Hin'.
    specialize (Hp _ Hin'). simpl in *. apply Z.ltb_lt.
    destruct p; [discriminate | cbn [length]; lia].
Qed.

Lemma index_insert_not_empty :
  forall h b ix, StdMap.empty (index_insert h b ix) = false.
Proof. intros. apply put_not_empty. Qed.

Lemma set_insert_length_le :
  forall b s,
    Z.of_nat (length s) <= Z.of_nat (length (StdSet.insert b s))
    <= Z.of_nat (length s) + 1.
Proof.
  intros b s. induction s as [|x s IH]; simpl; [lia|].
  destruct (b <? x); [cbn [length]; lia|].
  destruct (b =? x); cbn [length]; lia.
Qed.

Lemma add_backoff_returns :
  forall h s b,
    count_matches_index s = true ->
    add_backoff h s b
    = ([Lock_backoff_lock; Unlock_backoff_lock],
       Ret {| backoff_count := wrap_int (backoff_count s + 1);
              backoffs := index_insert h b (backoffs s) |}).
Proof. intros h s b H. unfold add_backoff. now rewrite H. Qed.

(** C9: [add_backoff] bumps [backoff_count] on every call.  When the token is
    already in its target set the index is left as it was, so a counter that
    equalled the number of stored entries no longer does; when the token is
    not yet there the index gains one entry and the equality is kept (short
    of the counter's overflow). *)
Theorem add_backoff_counts_every_call :
  forall h s b,
    index_sorted (backoffs s) = true ->
    count_matches_index s = true ->
    exists s',
      add_backoff h s b
      = ([Lock_backoff_lock; Unlock_backoff_lock], Ret s')
      /\ backoff_count s' = wrap_int (backoff_count s + 1)
      /\ (registered h s b = true ->
          backoffs s' = backoffs s
          /\ (backoff_count s = entries (backoffs s) ->
              backoff_count s' <> entries (backoffs s')))
      /\ (registered h s b = false ->
          entries (backoffs s') = entries (backoffs s) + 1
          /\ (backoff_count s = entries (backoffs s) ->
              entries (backoffs s) < 2 ^ 31 - 1 ->
              backoff_count s' = entries (backoffs s'))).
Proof.
  intros h s b Hs Hc. eexists. split; [apply add_backoff_returns, Hc|].
  cbn [backoff_count backoffs]. split; [reflexivity|]. split.
  - intros Hr. unfold registered in Hr.
    rewrite (index_insert_present _ _ _ Hs Hr). split; [reflexivity|].
    intros ->. apply wrap_int_succ_neq.
  - intros Hr. unfold registered in Hr.
    rewrite (index_insert_entries _ _ _ Hs).
    rewrite (set_insert_absent_length _ _ Hr). split; [lia|].
    intros -> Hlt. pose proof (entries_nonneg (backoffs s)).
    replace (entries (backoffs s) + (_ + 1) - _)
      with (entries (backoffs s) + 1) by lia.
    apply wrap_int_small. change (2 ^ 31) with 2147483648 in *. lia.
Qed.

Lemma add_backoff_counts_every_call_witness :
  exists s',
    add_backoff heap_overlap
      {| backoff_count := 1; backoffs := [(7, [(0, [1])])] |} 1
    = ([Lock_backoff_lock; Unlock_backoff_lock], Ret s')
    /\ backoff_count s' = 2
    /\ backoffs s' = [(7, [(0, [1])])].
Proof.
  destruct (add_backoff_counts_every_call heap_overlap
              {| backoff_count := 1; backoffs := [(7, [(0, [1])])] |} 1
              eq_refl eq_refl) as (s' & Hadd & Hcnt & Hreg & _).
  exists s'. split; [exact Hadd|]. split; [exact Hcnt|].
  apply (Hreg eq_refl).
Defined.

(** ** Removing a token that is not registered *)

Lemma rm_backoff_returned :
  forall me this h s b tr s',
    rm_backoff me this h s b = (tr, Ret s') ->
    s' = unlink h s b /\ count_matches_index s' = true.
Proof.
  intros me this h s b tr s'. unfold rm_backoff, ceph_assert.
  destruct (is_locked_by_me _ _); [|discriminate].
  destruct (match session (h b) with Some a => a =? this | None => false end);
    [|discriminate].
  destruct (count_matches_index (unlink h s b)) eqn:Hc; [|discriminate].
  simpl. intros [= _ <-]. auto.
Qed.

(** C6: calling [rm_backoff] with a token that is no longer in the index
    changes nothing.  A call that returns hands back the session as it was,
    with the same [backoff_count] (so a count that was not negative stays
    so) and the same nested map, and with the count/emptiness check passed;
    and the call does return when its preconditions hold and the check held
    before. *)
Theorem rm_backoff_again_is_noop :
  forall me this h s b,
    registered h s b = false ->
    unlink h s b = s
    /\ (forall tr s',
          rm_backoff me this h s b = (tr, Ret s') ->
          s' = s
          /\ count_matches_index s' = true
          /\ (0 <= backoff_count s -> 0 <= backoff_count s'))
    /\ (is_locked_by_me me (lock (h b)) = true ->
        session (h b) = Some this ->
        count_matches_index s = true ->
        rm_backoff me this h s b
        = ([Lock_backoff_lock; Unlock_backoff_lock], Ret s)).
Proof.
  intros me this h s b Hr.
  pose proof (unlink_unregistered _ _ _ Hr) as Hu.
  split; [exact Hu|]. split.
  - intros tr s' Hrm. apply rm_backoff_returned in Hrm as [-> Hc].
    rewrite Hu in *. auto.
  - intros Hl Hs Hc. unfold rm_backoff.
    rewrite Hl, Hs, Z.eqb_refl, Hu. simpl. now rewrite Hc.
Qed.

Lemma rm_backoff_again_is_noop_witness :
  rm_backoff 0 100 heap_disjoint
    {| backoff_count := 1; backoffs := [(7, [(5, [2])])] |} 1
  = ([Lock_backoff_lock; Unlock_backoff_lock],
     Ret {| backoff_count := 1; backoffs := [(7, [(5, [2])])] |}).
Proof.
  destruct (rm_backoff_again_is_noop 0 100 heap_disjoint
              {| backoff_count := 1; backoffs := [(7, [(5, [2])])] |} 1
              eq_refl) as (_ & _ & H).
  exact (H eq_refl eq_refl eq_refl).
Defined.

(** After a call of [rm_backoff] that returned, the token is out of the
    index, and calling again with the same token returns the same session. *)
Lemma rm_backoff_twice :
  forall me this h s b tr s',
    index_sorted (backoffs s) = true ->
    rm_backoff me this h s b = (tr, Ret s') ->
    registered h s' b = false
    /\ rm_backoff me this h s' b
       = ([Lock_backoff_lock; Unlock_backoff_lock], Ret s').
Proof.
  intros me this h s b tr s' Hs Hrm.
  pose proof (rm_backoff_returned _ _ _ _ _ _ _ Hrm) as [-> Hc].
  pose proof (unlink_unregisters h s b Hs) as Hr.
  split; [exact Hr|].
  unfold rm_backoff, ceph_assert in *.
  destruct (is_locked_by_me _ _); [|discriminate].
  destruct (match session (h b) with Some a => a =? this | None => false end);
    [|discriminate].
  rewrite (unlink_unregistered _ _ _ Hr), Hc. reflexivity.
Qed.

(** ** The count/emptiness check along a run *)

Lemma count_adds_cons :
  forall c cs,
    count_adds (c :: cs) = (if is_add c then 1 else 0) + count_adds cs.
Proof.
  intros c cs. unfold count_adds. simpl.
  destruct (is_add c); cbn [length]; lia.
Qed.

Lemma count_adds_nonneg : forall cs, 0 <= count_adds cs.
Proof. intros cs. unfold count_adds. lia. Qed.

Lemma count_adds_app :
  forall pre post, count_adds (pre ++ post) = count_adds pre + count_adds post.
Proof.
  intros pre post. unfold count_adds.
  rewrite filter_app, length_app. lia.
Qed.

Lemma Session_new_counted : counted 0 Session_new.
Proof.
  split; [reflexivity|]. split; [reflexivity|].
  exists 0. split; [reflexivity | cbn; lia].
Qed.

Lemma add_backoff_counted :
  forall n h s b,
    counted n s ->
    n + 1 < 2 ^ 32 ->
    let s' := {| backoff_count := wrap_int (backoff_count s + 1);
                 backoffs := index_insert h b (backoffs s) |} in
    counted (n + 1) s' /\ count_matches_index s' = true.
Proof.
  intros n h s b (Hs & Hne & c & Hc & Hle) Hn s'.
  pose proof (index_insert_no_empty h b _ Hne) as Hne'.
  pose proof (entries_positive _ Hne' (index_insert_not_empty h b _)) as Hpos.
  pose proof (index_insert_entries h b _ Hs) as He.
  pose proof (set_insert_length_le b
                (StdMap.subscript [] (begin_ (h b))
                   (StdMap.subscript [] (pgid (h b)) (backoffs s)))) as Hl.
  assert (Hc' : backoff_count s' = wrap_int (c + 1)).
  { subst s'. cbn [backoff_count]. rewrite Hc. apply wrap_int_add. }
  split.
  - split; [apply index_insert_sorted, Hs|]. split; [exact Hne'|].
    exists (c + 1). split; [exact Hc'|]. subst s'. cbn [backoffs]. lia.
  - unfold count_matches_index. rewrite Hc'.
    subst s'. cbn [backoffs] in *. rewrite index_insert_not_empty.
    destruct (Z.eqb_spec (wrap_int (c + 1)) 0) as [E|E]; [|reflexivity].
    exfalso. revert E. apply wrap_int_nonzero. lia.
Qed.

Lemma unlink_counted :
  forall n h s b, counted n s -> counted n (unlink h s b).
Proof.
  intros n h s b (Hs & Hne & c & Hc & Hle).
  split; [apply unlink_sorted, Hs|]. split; [apply unlink_no_empty, Hne|].
  rewrite unlink_count, (unlink_entries _ _ _ Hs).
  destruct (registered h s b).
  - exists (c - 1). rewrite Hc. split; [apply wrap_int_add | lia].
  - exists c. split; [exact Hc | lia].
Qed.

Lemma do_call_counted :
  forall c n s s',
    counted n s ->
    count_matches_index s = true ->
    n + (if is_add c then 1 else 0) < 2 ^ 32 ->
    snd (do_call c s) = Ret s' ->
    counted (n + (if is_add c then 1 else 0)) s'
    /\ count_matches_index s' = true.
Proof.
  intros [h b | me this h b] n s s' Hcnt Hc Hn Hret; cbn [do_call is_add] in *.
  - rewrite (add_backoff_returns _ _ _ Hc) in Hret. injection Hret as <-.
    apply add_backoff_counted; assumption.
  - destruct (rm_backoff me this h s b) as [tr o] eqn:Hrm.
    cbn [snd] in Hret. subst o.
    apply rm_backoff_returned in Hrm as [-> Hc'].
    rewrite Z.add_0_r. split; [apply unlink_counted, Hcnt | exact Hc'].
Qed.

Lemma run_counted :
  forall cs n s s',
    counted n s ->
    count_matches_index s = true ->
    n + count_adds cs < 2 ^ 32 ->
    run cs s = Ret s' ->
    counted (n + count_adds cs) s' /\ count_matches_index s' = true.
Proof.
  induction cs as [|c cs IH]; intros n s s' Hcnt Hc Hn Hrun.
  - injection Hrun as <-. unfold count_adds. simpl.
    rewrite Z.add_0_r. auto.
  - rewrite count_adds_cons in *. cbn [run] in Hrun.
    destruct (snd (do_call c s)) as [s1|site] eqn:Hcall; [|discriminate].
    pose proof (count_adds_nonneg cs).
    destruct (do_call_counted c n s s1 Hcnt Hc ltac:(lia) Hcall)
      as [Hcnt1 Hc1].
    rewrite Z.add_assoc. apply (IH _ s1); [assumption | assumption | lia |].
    exact Hrun.
Qed.

(** C2 (amended): start from a fresh session and make any calls of
    [add_backoff] and [rm_backoff], fewer than [2^32] of them [add_backoff].
    After every call that returns, [backoff_count] is zero exactly when the
    outer map is empty; and from such a state [add_backoff] always returns.
    (A call of [rm_backoff] whose checks fail aborts and releases
    nothing.) *)
Theorem count_matches_index_after_every_call :
  forall cs pre post s,
    cs = pre ++ post ->
    count_adds cs < 2 ^ 32 ->
    run pre Session_new = Ret s ->
    count_matches_index s = true
    /\ (forall h b, exists s',
          add_backoff h s b
          = ([Lock_backoff_lock; Unlock_backoff_lock], Ret s')).
Proof.
  intros cs pre post s -> Hn Hrun.
  rewrite count_adds_app in Hn. pose proof (count_adds_nonneg post).
  destruct (run_counted pre 0 Session_new s Session_new_counted eq_refl
              ltac:(lia) Hrun) as [_ Hc].
  split; [exact Hc|]. intros h b. eexists. apply add_backoff_returns, Hc.
Qed.

Lemma count_matches_index_after_every_call_witness :
  count_matches_index
    {| backoff_count := 1; backoffs := [(7, [(5, [2])])] |} = true.
Proof.
  apply (count_matches_index_after_every_call
           [Call_add heap_disjoint 1; Call_add heap_disjoint 2;
            Call_rm 0 100 heap_disjoint 1; Call_rm 0 100 heap_disjoint 2]
           [Call_add heap_disjoint 1; Call_add heap_disjoint 2;
            Call_rm 0 100 heap_disjoint 1]
           [Call_rm 0 100 heap_disjoint 2]).
  - reflexivity.
  - reflexivity.
  - reflexivity.
Defined.

Lemma run_repeat_add :
  forall n k,
    0 < k ->
    k + Z.of_nat n <= 2 ^ 32 ->
    run (repeat (Call_add heap_overlap 1) n)
      {| backoff_count := wrap_int k; backoffs := [(7, [(0, [1])])] |}
    = Ret {| backoff_count := wrap_int (k + Z.of_nat n);
             backoffs := [(7, [(0, [1])])] |}.
Proof.
  induction n as [|n IH]; intros k Hk Hle.
  - cbn [repeat run Z.of_nat]. now rewrite Z.add_0_r.
  - cbn [repeat run do_call].
    rewrite add_backoff_returns.
    + cbn [snd backoff_count backoffs].
      change (index_insert heap_overlap 1 [(7, [(0, [1])])])
        with [(7, [(0, [1])])].
      rewrite wrap_int_add, IH by lia. do 3 f_equal. lia.
    + unfold count_matches_index. cbn [backoff_count backoffs StdMap.empty].
      destruct (Z.eqb_spec (wrap_int k) 0) as [E|E]; [|reflexivity].
      exfalso. revert E. apply wrap_int_nonzero. lia.
Qed.

Lemma filter_is_add_repeat :
  forall n h b,
    filter is_add (repeat (Call_add h b) n) = repeat (Call_add h b) n.
Proof.
  induction n as [|n IH]; intros h b; [reflexivity|].
  cbn [repeat filter is_add]. now rewrite IH.
Qed.

(** C2 (as stated, refuted): add one token [2^32] times to a fresh session.
    Every call returns, the token sits in the index, and the 32-bit counter
    has wrapped round to zero: the counter reads zero over a map that is not
    empty. *)
Lemma many_adds_break_count_matches_index :
  count_adds many_adds = 2 ^ 32
  /\ run many_adds Session_new
     = Ret {| backoff_count := 0; backoffs := [(7, [(0, [1])])] |}
  /\ count_matches_index
       {| backoff_count := 0; backoffs := [(7, [(0, [1])])] |} = false.
Proof.
  assert (Hn : Z.of_nat (Z.to_nat (2 ^ 32)) = 2 ^ 32)
    by (apply Z2Nat.id; discriminate).
  split; [|split; [|reflexivity]].
  - unfold many_adds, count_adds.
    now rewrite filter_is_add_repeat, repeat_length.
  - unfold many_adds.
    destruct (Z.to_nat (2 ^ 32)) as [|m]; [discriminate Hn|].
    cbn [repeat run do_call]. rewrite add_backoff_returns by reflexivity.
    cbn [snd].
    change {| backoff_count := wrap_int (backoff_count Session_new + 1);
              backoffs := index_insert heap_overlap 1 (backoffs Session_new) |}
      with {| backoff_count := wrap_int 1; backoffs := [(7, [(0, [1])])] |}.
    rewrite run_repeat_add by lia.
    replace (1 + Z.of_nat m) with (2 ^ 32) by lia. reflexivity.
Qed.

(** ** The lookup inside one shard *)

Section LowerBound.
Context {V : Type}.
Implicit Types (m : StdMap.t V) (oid k : Z) (v : V).

Lemma lower_bound_le_length :
  forall oid m, (StdMap.lower_bound oid m <= length m)%nat.
Proof.
  intros oid m. induction m as [|[k v] m IH]; simpl; [lia|].
  destruct (k <? oid); lia.
Qed.

(** The binding at [lower_bound(oid)], if any, has a key not below [oid]. *)
Lemma lower_bound_at :
  forall oid m k v,
    nth_error m (StdMap.lower_bound oid m) = Some (k, v) -> oid <= k.
Proof.
  intros oid m. induction m as [|[k0 v0] m IH]; intros k v; simpl;
    [discriminate|].
  destruct (Z.ltb_spec k0 oid); simpl; [apply IH|].
  intros [= <- _]. assumption.
Qed.

(** Every binding before [lower_bound(oid)] has a key below [oid]. *)
Lemma lower_bound_before :
  forall oid m j k v,
    (j < StdMap.lower_bound oid m)%nat ->
    nth_error m j = Some (k, v) -> k < oid.
Proof.
  intros oid m. induction m as [|[k0 v0] m IH]; intros j k v; simpl;
    [lia|].
  destruct (Z.ltb_spec k0 oid); [|lia].
  destruct j as [|j]; simpl.
  - intros _ [= <- _]. assumption.
  - intros Hj. apply IH. lia.
Qed.

(** What the iterator arithmetic of lines 183-187 arrives at. *)
Lemma floor_binding_lower_bound :
  forall oid m,
    map_sorted m = true ->
    floor_binding oid m
    = let p := StdMap.lower_bound oid m in
      let back := match p with O => None | S j => nth_error m j end in
      match nth_error m p with
      | Some (k, v) => if k =? oid then Some (k, v) else back
      | None => back
      end.
Proof.
  intros oid m. induction m as [|[k0 v0] m IH]; intros Hs; [reflexivity|].
  apply map_sorted_cons in Hs as [Hlt Hs]. specialize (IH Hs).
  cbn [floor_binding StdMap.lower_bound].
  destruct (Z.ltb_spec k0 oid) as [Hk|Hk].
  - destruct (Z.leb_spec k0 oid); [|lia].
    rewrite IH. cbn zeta. cbn [nth_error].
    pose proof (lower_bound_le_length oid m) as Hlen.
    destruct (nth_error m (StdMap.lower_bound oid m)) as [[k v]|] eqn:Hp.
    + destruct (k =? oid); [reflexivity|].
      destruct (StdMap.lower_bound oid m) as [|j] eqn:Hlb; [reflexivity|].
      cbn [nth_error].
      destruct (nth_error m j) eqn:Hj; [reflexivity|].
      apply nth_error_None in Hj. lia.
    + destruct (StdMap.lower_bound oid m) as [|j] eqn:Hlb; [reflexivity|].
      cbn [nth_error].
      destruct (nth_error m j) eqn:Hj; [reflexivity|].
      apply nth_error_None in Hj. lia.
  - cbn zeta. cbn [nth_error].
    destruct (Z.eqb_spec k0 oid) as [->|Hne].
    + rewrite Z.leb_refl.
      destruct m as [|[k1 v1] m]; [reflexivity|]. cbn [floor_binding].
      specialize (Hlt k1 (or_introl eq_refl)).
      destruct (Z.leb_spec k1 oid); [lia | reflexivity].
    + destruct (Z.leb_spec k0 oid); [lia | reflexivity].
Qed.

Lemma floor_binding_In :
  forall oid m k v,
    floor_binding oid m = Some (k, v) -> In (k, v) m /\ k <= oid.
Proof.
  intros oid m. induction m as [|[k0 v0] m IH]; intros k v; simpl;
    [discriminate|].
  destruct (Z.leb_spec k0 oid); [|discriminate].
  destruct (floor_binding oid m) as [[k1 v1]|].
  - intros [= -> ->]. destruct (IH _ _ eq_refl). auto.
  - intros [= <- <-]. auto.
Qed.

Lemma floor_binding_greatest :
  forall oid m k' v',
    map_sorted m = true ->
    In (k', v') m -> k' <= oid ->
    exists k v, floor_binding oid m = Some (k, v) /\ k' <= k.
Proof.
  intros oid m. induction m as [|[k0 v0] m IH]; intros k' v' Hs Hin Hle;
    [destruct Hin|].
  apply map_sorted_cons in Hs as [Hlt Hs]. cbn [floor_binding].
  destruct Hin as [[= -> ->]|Hin].
  - destruct (Z.leb_spec k' oid); [|lia].
    destruct (floor_binding oid m) as [[k1 v1]|] eqn:Hf.
    + exists k1, v1. split; [reflexivity|].
      apply floor_binding_In in Hf as [Hin1 _].
      specialize (Hlt k1 (in_map fst _ _ Hin1)). lia.
    + exists k', v'. split; [reflexivity | lia].
  - pose proof (Hlt k' (in_map fst _ _ Hin)) as Hk0. simpl in Hk0.
    destruct (Z.leb_spec k0 oid); [|lia].
    destruct (IH k' v' Hs Hin Hle) as (k & v & -> & Hkk).
    exists k, v. auto.
Qed.

End LowerBound.

Lemma cmp_sign :
  forall l r,
    (l = r /\ cmp l r = 0) \/ (l < r /\ cmp l r = -1)
    \/ (r < l /\ cmp l r = 1).
Proof.
  intros l r. unfold cmp. destruct (Z.compare_spec l r); auto.
Qed.

Lemma cmp_refl : forall k, cmp k k = 0.
Proof. intros k. unfold cmp. now rewrite Z.compare_refl. Qed.

(** The lookup inside one shard takes the binding with the greatest start
    key not above [oid] and scans its set. *)
Lemma lookup_in_pg_floor :
  forall h oid m,
    map_sorted m = true ->
    lookup_in_pg h oid m
    = match floor_binding oid m with
      | Some (k, qs) => scan h oid (cmp oid k) qs
      | None => None
      end.
Proof.
  intros h oid m Hs. rewrite (floor_binding_lower_bound oid m Hs).
  unfold lookup_in_pg. cbn zeta.
  pose proof (lower_bound_at oid m) as Hat.
  pose proof (lower_bound_before oid m) as Hbe.
  destruct (StdMap.lower_bound oid m) as [|j] eqn:Hlb.
  - cbn [Nat.eqb negb andb].
    destruct (nth_error m 0) as [[k qs]|] eqn:Hp; [|reflexivity].
    specialize (Hat _ _ eq_refl).
    destruct (cmp_sign oid k) as [[-> ->]|[[Hlt ->]|[Hgt _]]]; [| |lia].
    + rewrite !Z.eqb_refl. cbn beta iota. now rewrite cmp_refl.
    + destruct (Z.eqb_spec k oid); [lia | reflexivity].
  - cbn [Nat.eqb negb andb pred].
    assert (Hback :
      match nth_error m j with
      | Some (k, qs) =>
          (if (cmp oid k =? 0) || (cmp oid k >? 0)
           then scan h oid (cmp oid k) qs else None)
      | None => None
      end
      = match nth_error m j with
        | Some (k, qs) => scan h oid (cmp oid k) qs
        | None => None
        end).
    { destruct (nth_error m j) as [[k qs]|] eqn:Hj; [|reflexivity].
      specialize (Hbe j k qs ltac:(lia) Hj).
      destruct (cmp_sign oid k) as [[-> _]|[[Hlt _]|[_ ->]]];
        [lia | lia | reflexivity]. }
    destruct (nth_error m (S j)) as [[k qs]|] eqn:Hp; [|exact Hback].
    specialize (Hat _ _ eq_refl).
    destruct (Z.eqb_spec k oid) as [->|Hne].
    + rewrite Z.gtb_ltb, Z.ltb_irrefl, Hp. cbn beta iota.
      now rewrite cmp_refl.
    + replace (k >? oid) with true
        by (symmetry; rewrite Z.gtb_ltb; apply Z.ltb_lt; lia).
      exact Hback.
Qed.

Lemma scan_some :
  forall h oid r qs b,
    scan h oid r qs = Some b ->
    In b qs /\ (r = 0 \/ oid < end_ (h b)).
Proof.
  intros h oid r qs b H. apply find_some in H as [Hin Hp].
  split; [exact Hin|]. apply orb_true_iff in Hp as [Hp|Hp].
  - left. now apply Z.eqb_eq.
  - right. now apply Z.ltb_lt.
Qed.

Lemma scan_finds :
  forall h oid r qs q,
    In q qs -> r = 0 \/ oid < end_ (h q) -> scan h oid r qs <> None.
Proof.
  intros h oid r qs q Hin Hp Hnone.
  pose proof (find_none _ _ Hnone q Hin) as Hf. cbn beta in Hf.
  apply orb_false_iff in Hf as [H1 H2].
  destruct Hp as [->|Hlt]; [discriminate H1|].
  apply Z.ltb_ge in H2. lia.
Qed.

Lemma no_overlap_spec :
  forall h qs q1 q2,
    no_overlap h qs = true ->
    In q1 qs -> In q2 qs ->
    begin_ (h q1) < begin_ (h q2) -> end_ (h q1) <= begin_ (h q2).
Proof.
  intros h qs q1 q2 H H1 H2 Hlt. unfold no_overlap in H.
  rewrite forallb_forall in H. specialize (H q1 H1).
  rewrite forallb_forall in H. specialize (H q2 H2).
  apply Z.ltb_lt in Hlt. rewrite Hlt in H. cbn in H.
  now apply Z.leb_le.
Qed.

Lemma blocks_spec :
  forall h oid q,
    blocks h oid q = true <->
    begin_ (h q) = oid \/ (begin_ (h q) <= oid /\ oid < end_ (h q)).
Proof.
  intros h oid q. unfold blocks.
  rewrite orb_true_iff, andb_true_iff, Z.eqb_eq, Z.leb_le, Z.ltb_lt.
  reflexivity.
Qed.

Lemma In_tokens :
  forall (i : StdMap.t StdSet.t) q,
    In q (concat (map snd i)) <-> exists k qs, In (k, qs) i /\ In q qs.
Proof.
  intros i q. rewrite in_concat. split.
  - intros (qs & Hqs & Hq). apply in_map_iff in Hqs as ([k qs'] & <- & Hin).
    exists k, qs'. auto.
  - intros (k & qs & Hin & Hq). exists qs. split; [|exact Hq].
    apply in_map_iff. exists (k, qs). auto.
Qed.

(** The lookup inside one well-formed shard map whose blocks do not overlap:
    it answers with a token exactly when some token of the shard blocks the
    key, and the token it answers with does block the key. *)
Lemma lookup_in_pg_spec :
  forall h oid (i : StdMap.t StdSet.t),
    map_sorted i = true ->
    (forall k qs, In (k, qs) i ->
       qs <> [] /\ forall q, In q qs -> begin_ (h q) = k) ->
    no_overlap h (concat (map snd i)) = true ->
    (lookup_in_pg h oid i <> None <->
     exists q, In q (concat (map snd i)) /\ blocks h oid q = true)
    /\ (forall b, lookup_in_pg h oid i = Some b ->
          In b (concat (map snd i)) /\ blocks h oid b = true).
Proof.
  intros h oid i Hs Hkey Hno. rewrite (lookup_in_pg_floor h oid i Hs).
  assert (Hsound : forall b,
    match floor_binding oid i with
    | Some (k, qs) => scan h oid (cmp oid k) qs
    | None => None
    end = Some b ->
    In b (concat (map snd i)) /\ blocks h oid b = true).
  { intros b Hb.
    destruct (floor_binding oid i) as [[k qs]|] eqn:Hf; [|discriminate].
    apply floor_binding_In in Hf as [Hin Hle].
    apply scan_some in Hb as [Hbq Hr].
    destruct (Hkey _ _ Hin) as [_ Hbeg]. specialize (Hbeg b Hbq).
    split; [apply In_tokens; eauto|]. apply blocks_spec.
    destruct (cmp_sign oid k) as [[-> _]|[[Hlt _]|[Hgt Hc]]];
      [auto | lia |].
    destruct Hr as [Hr|Hr]; [lia|]. right. lia. }
  split; [|exact Hsound]. split.
  - intros Hne.
    destruct (match floor_binding oid i with
              | Some (k, qs) => scan h oid (cmp oid k) qs
              | None => None
              end) as [b|] eqn:Hb; [|congruence].
    exists b. apply Hsound. reflexivity.
  - intros (q & Hq & Hbl). apply In_tokens in Hq as (k' & qs' & Hin' & Hq').
    destruct (Hkey _ _ Hin') as [_ Hbeg']. specialize (Hbeg' q Hq').
    apply blocks_spec in Hbl.
    assert (Hle : k' <= oid) by lia.
    destruct (floor_binding_greatest oid i k' qs' Hs Hin' Hle)
      as (k & qs & Hf & Hkk).
    rewrite Hf. apply floor_binding_In in Hf as [Hin Hko].
    destruct (Z.eq_dec k k') as [->|Hne].
    + assert (qs = qs') as ->.
      { pose proof (In_find _ _ _ Hs Hin) as E1.
        pose proof (In_find _ _ _ Hs Hin') as E2. congruence. }
      apply (scan_finds h oid _ qs' q Hq').
      destruct (cmp_sign oid k') as [[_ ->]|[[Hlt _]|[Hgt _]]];
        [auto | lia | right; lia].
    + exfalso. destruct (Hkey _ _ Hin) as [Hnil Hbeg].
      destruct qs as [|q2 qs]; [congruence|].
      specialize (Hbeg q2 (or_introl eq_refl)).
      assert (Hq2 : In q2 (concat (map snd i))).
      { apply In_tokens. exists k, (q2 :: qs). split; [exact Hin | now left]. }
      assert (Hq1 : In q (concat (map snd i))).
      { apply In_tokens. eauto. }
      pose proof (no_overlap_spec h _ q q2 Hno Hq1 Hq2 ltac:(lia)). lia.
Qed.

Lemma wf_session_find :
  forall h s pgid0 i,
    wf_session h s = true ->
    StdMap.find pgid0 (backoffs s) = Some i ->
    map_sorted i = true
    /\ (forall k qs, In (k, qs) i ->
          qs <> [] /\ forall q, In q qs -> begin_ (h q) = k).
Proof.
  intros h s pgid0 i Hwf Hf. unfold wf_session in Hwf.
  apply andb_true_iff in Hwf as [Hwf _].
  apply andb_true_iff in Hwf as [Hwf Hkey].
  apply andb_true_iff in Hwf as [Hs Hne].
  split; [apply (index_sorted_find _ _ _ Hs Hf)|].
  pose proof (find_forallb _ _ _ _ Hne Hf) as Hne'.
  pose proof (find_forallb _ _ _ _ Hkey Hf) as Hkey'.
  cbn [snd fst] in *. apply andb_true_iff in Hne' as [_ Hne'].
  rewrite forallb_forall in Hne', Hkey'.
  intros k qs Hin. specialize (Hne' _ Hin). specialize (Hkey' _ Hin).
  cbn [snd fst] in *. split.
  - intros ->. discriminate Hne'.
  - rewrite forallb_forall in Hkey'. intros q Hq.
    specialize (Hkey' q Hq). apply andb_true_iff in Hkey' as [_ Hb].
    now apply Z.eqb_eq.
Qed.

(** ** Lookup against the registered ranges *)

(** C1 (as stated, refuted): token 1 blocks [[0, 10)] and token 2 the single
    key 5, both registered for shard 7 by two calls of [add_backoff].  The
    lookup of key 7 steps back to the start key 5, finds no match there, and
    returns null, although token 1 is registered and its range holds 7. *)
Lemma have_backoff_misses_overlapped_range :
  run [Call_add heap_overlap 1; Call_add heap_overlap 2] Session_new
  = Ret session_overlap
  /\ wf_session heap_overlap session_overlap = true
  /\ In 1 (tokens_of_pg session_overlap 7)
  /\ blocks heap_overlap 7 1 = true
  /\ have_backoff heap_overlap session_overlap 7 7
     = ([Lock_backoff_lock; Unlock_backoff_lock], Ret None).
Proof.
  split; [reflexivity|]. split; [reflexivity|].
  split; [now left|]. split; reflexivity.
Qed.

(** C1 (amended): on a well-formed session in which the blocks registered
    for the shard do not overlap when they start at different keys,
    [have_backoff] returns, and it returns a token exactly when some token
    registered for that shard has [begin == key] or [begin <= key < end];
    the token returned is such a token, and otherwise the result is null. *)
Theorem have_backoff_iff_no_overlap :
  forall h s pgid0 oid,
    wf_session h s = true ->
    no_overlap h (tokens_of_pg s pgid0) = true ->
    exists r,
      snd (have_backoff h s pgid0 oid) = Ret r
      /\ (r <> None <->
          exists q, In q (tokens_of_pg s pgid0) /\ blocks h oid q = true)
      /\ (forall b, r = Some b ->
            In b (tokens_of_pg s pgid0) /\ blocks h oid b = true).
Proof.
  intros h s pgid0 oid Hwf Hno.
  assert (Hc : count_matches_index s = true).
  { unfold wf_session in Hwf. now apply andb_true_iff in Hwf. }
  unfold have_backoff. rewrite Hc. unfold ceph_assert.
  unfold tokens_of_pg, StdMap.subscript in *. same_types.
  destruct (backoff_count s =? 0) eqn:Hz.
  - unfold count_matches_index in Hc. rewrite Hz in Hc.
    destruct (backoffs s) as [|e ix]; [|discriminate Hc].
    exists None. cbn. split; [reflexivity|]. split; [|discriminate].
    split; [congruence | intros (q & [] & _)].
  - destruct (StdMap.find pgid0 _) as [i|] eqn:Hf.
    + exists (lookup_in_pg h oid i). split; [reflexivity|].
      destruct (wf_session_find _ _ _ _ Hwf Hf) as [Hs Hkey].
      apply (lookup_in_pg_spec h oid i Hs Hkey Hno).
    + exists None. cbn. split; [reflexivity|]. split; [|discriminate].
      split; [congruence | intros (q & [] & _)].
Qed.

Lemma have_backoff_iff_no_overlap_witness :
  exists r,
    snd (have_backoff heap_disjoint session_disjoint 7 6) = Ret r
    /\ (r <> None <->
        exists q,
          In q (tokens_of_pg session_disjoint 7)
          /\ blocks heap_disjoint 6 q = true)
    /\ (forall b, r = Some b ->
          In b (tokens_of_pg session_disjoint 7)
          /\ blocks heap_disjoint 6 b = true).
Proof.
  apply (have_backoff_iff_no_overlap heap_disjoint session_disjoint 7 6).
  - reflexivity.
  - reflexivity.
Defined.

(** ** Well-formedness of the sessions a run reaches *)

Lemma set_insert_forallb :
  forall (P : BackoffRef -> bool) b s,
    P b = true -> forallb P s = true ->
    forallb P (StdSet.insert b s) = true.
Proof.
  intros P b s Hb Hs. rewrite forallb_forall in *.
  intros y Hy. destruct (set_insert_In _ _ _ Hy) as [->|Hy']; auto.
Qed.

Lemma set_erase_forallb :
  forall (P : BackoffRef -> bool) b s,
    forallb P s = true -> forallb P (StdSet.erase b s) = true.
Proof.
  intros P b s Hs. rewrite forallb_forall in *.
  intros y Hy. apply Hs, (set_erase_In _ _ _ Hy).
Qed.

Lemma index_insert_keyed :
  forall h b ix,
    keyed_by_token h ix = true ->
    keyed_by_token h (index_insert h b ix) = true.
Proof.
  intros h b ix H. unfold index_insert, keyed_by_token in *.
  apply put_forallb; [|exact H]. cbn [fst snd].
  unfold StdMap.subscript. same_types.
  destruct (StdMap.find (pgid (h b)) _) as [i|] eqn:Hi.
  - pose proof (find_forallb _ _ _ _ H Hi) as Hk. cbn [fst snd] in Hk.
    apply put_forallb; [|exact Hk]. cbn [fst snd].
    apply set_insert_forallb; [now rewrite !Z.eqb_refl|].
    destruct (StdMap.find (begin_ (h b)) _) as [p|] eqn:Hp; [|reflexivity].
    apply (find_forallb _ _ _ _ Hk Hp).
  - cbn. now rewrite !Z.eqb_refl.
Qed.

Lemma unlink_keyed :
  forall h s b,
    keyed_by_token h (backoffs s) = true ->
    keyed_by_token h (backoffs (unlink h s b)) = true.
Proof.
  intros h s b H. destruct (registered h s b) eqn:Hr;
    [|now rewrite unlink_unregistered].
  destruct (registered_find _ _ _ Hr) as (i & p & Hi & Hp & Hm).
  unfold keyed_by_token in *.
  pose proof (find_forallb _ _ _ _ H Hi) as Hk. cbn [fst snd] in Hk.
  pose proof (find_forallb _ _ _ _ Hk Hp) as Hq. cbn [fst snd] in Hq.
  unfold unlink. same_types. rewrite Hi, Hp, Hm. cbn [backoffs].
  destruct (StdSet.empty (StdSet.erase b p)); cbn [andb].
  - destruct (StdMap.empty (StdMap.erase (begin_ (h b)) i)).
    + apply erase_forallb, H.
    + apply put_forallb; [|exact H]. cbn [fst snd].
      apply erase_forallb, Hk.
  - apply put_forallb; [|exact H]. cbn [fst snd].
    apply put_forallb; [|exact Hk]. cbn [fst snd].
    apply set_erase_forallb, Hq.
Qed.

Lemma index_insert_keys_as_in :
  forall h h' b ix,
    (forall q, pgid (h' q) = pgid (h q) /\ begin_ (h' q) = begin_ (h q)) ->
    index_insert h' b ix = index_insert h b ix.
Proof.
  intros h h' b ix Hk. unfold index_insert.
  destruct (Hk b) as [-> ->]. reflexivity.
Qed.

Lemma unlink_keys_as_in :
  forall h h' s b,
    (forall q, pgid (h' q) = pgid (h q) /\ begin_ (h' q) = begin_ (h q)) ->
    unlink h' s b = unlink h s b.
Proof.
  intros h h' s b Hk. unfold unlink.
  destruct (Hk b) as [-> ->]. reflexivity.
Qed.

Lemma run_keyed :
  forall h cs s s',
    (forall c, In c cs -> keys_as_in h c) ->
    keyed_by_token h (backoffs s) = true ->
    run cs s = Ret s' ->
    keyed_by_token h (backoffs s') = true.
Proof.
  intros h cs. induction cs as [|c cs IH]; intros s s' Hcs Hk Hrun.
  - now injection Hrun as <-.
  - cbn [run] in Hrun.
    destruct (snd (do_call c s)) as [s1|site] eqn:Hcall; [|discriminate].
    apply (IH s1 s'); [intros c' Hc'; apply Hcs; now right | | exact Hrun].
    pose proof (Hcs c (or_introl eq_refl)) as Hkeys. clear IH Hrun Hcs.
    destruct c as [h' b | me this h' b];
      unfold keys_as_in in Hkeys; cbn [call_heap do_call] in *.
    + unfold add_backoff, ceph_assert in Hcall.
      destruct (count_matches_index s); [|discriminate].
      injection Hcall as <-. cbn [backoffs].
      rewrite (index_insert_keys_as_in h h' b _ Hkeys).
      apply index_insert_keyed, Hk.
    + destruct (rm_backoff me this h' s b) as [tr o] eqn:Hrm.
      cbn [snd] in Hcall. subst o.
      apply rm_backoff_returned in Hrm as [-> _].
      rewrite (unlink_keys_as_in h h' s b Hkeys).
      apply unlink_keyed, Hk.
Qed.

(** X15: every session that calls of [add_backoff] and [rm_backoff] reach
    from a fresh one is well formed with respect to a store in which the
    tokens have the [pgid] and [begin] the calls saw, as long as the counter
    has not wrapped. *)
Lemma run_wf_session :
  forall h cs s,
    (forall c, In c cs -> keys_as_in h c) ->
    count_adds cs < 2 ^ 32 ->
    run cs Session_new = Ret s ->
    wf_session h s = true.
Proof.
  intros h cs s Hcs Hn Hrun.
  destruct (run_counted cs 0 Session_new s Session_new_counted eq_refl
              ltac:(lia) Hrun) as [(Hs & Hne & _) Hc].
  pose proof (run_keyed h cs Session_new s Hcs eq_refl Hrun) as Hk.
  unfold wf_session. now rewrite Hs, Hne, Hk, Hc.
Qed.

(** * Further properties of the code *)

(** ** More on the ordered containers *)

Lemma set_mem_insert :
  forall q b s, StdSet.mem q (StdSet.insert b s) = (b =? q) || StdSet.mem q s.
Proof.
  intros q b s. induction s as [|x s IH]; [reflexivity|].
  cbn [StdSet.insert].
  destruct (b <? x); [reflexivity|].
  destruct (Z.eqb_spec b x) as [->|Hne]; simpl.
  - now destruct (x =? q).
  - rewrite IH. now destruct (x =? q), (b =? q).
Qed.

Lemma set_mem_erase_other :
  forall q b s, q <> b -> StdSet.mem q (StdSet.erase b s) = StdSet.mem q s.
Proof.
  intros q b s Hne. induction s as [|x s IH]; [reflexivity|].
  cbn [StdSet.erase]. destruct (Z.eqb_spec x b) as [->|Hx]; simpl.
  - destruct (Z.eqb_spec b q); [congruence | reflexivity].
  - now rewrite IH.
Qed.

Lemma set_erase_insert :
  forall b s,
    StdSet.sorted s = true -> StdSet.mem b s = false ->
    StdSet.erase b (StdSet.insert b s) = s.
Proof.
  intros b s. induction s as [|x s IH]; intros Hs Hm.
  - simpl. now rewrite Z.eqb_refl.
  - apply sorted_cons in Hs as [_ Hs]. simpl in Hm.
    apply orb_false_iff in Hm as [Hx Hm]. cbn [StdSet.insert].
    destruct (b <? x); [simpl; now rewrite Z.eqb_refl|].
    rewrite Z.eqb_sym, Hx. cbn [StdSet.erase]. rewrite Hx.
    now rewrite IH.
Qed.

Lemma set_insert_erase :
  forall b s,
    StdSet.sorted s = true -> StdSet.mem b s = true ->
    StdSet.insert b (StdSet.erase b s) = s.
Proof.
  intros b s. induction s as [|x s IH]; intros Hs Hm; [discriminate|].
  apply sorted_cons in Hs as [Hlt Hs]. simpl in Hm. cbn [StdSet.erase].
  destruct (Z.eqb_spec x b) as [->|Hx].
  - destruct s as [|y s]; [reflexivity|]. cbn [StdSet.insert].
    specialize (Hlt y (or_introl eq_refl)).
    destruct (Z.ltb_spec b y); [reflexivity | lia].
  - simpl in Hm. apply set_mem_In in Hm. specialize (Hlt b Hm).
    cbn [StdSet.insert]. destruct (Z.ltb_spec b x); [lia|].
    destruct (Z.eqb_spec b x); [lia|].
    rewrite IH; [reflexivity | exact Hs | now apply set_mem_In].
Qed.

Lemma set_insert_head_le :
  forall b s q t, StdSet.insert b s = q :: t -> q <= b.
Proof.
  intros b [|x s] q t; simpl.
  - intros [= <- _]. lia.
  - destruct (Z.ltb_spec b x); [intros [= <- _]; lia|].
    destruct (Z.eqb_spec b x); intros [= <- _]; lia.
Qed.

Lemma find_least :
  forall (P : Z -> bool) s b q,
    StdSet.sorted s = true ->
    find P s = Some b -> In q s -> P q = true -> b <= q.
Proof.
  intros P s b q. induction s as [|x s IH]; intros Hs Hf Hin HP;
    [destruct Hin|].
  apply sorted_cons in Hs as [Hlt Hs]. simpl in Hf.
  destruct (P x) eqn:Hx.
  - injection Hf as <-. destruct Hin as [<-|Hin]; [lia|].
    specialize (Hlt q Hin). lia.
  - destruct Hin as [<-|Hin]; [congruence|]. now apply IH.
Qed.

Section MoreMapFacts.
Context {V : Type}.
Implicit Types (m : StdMap.t V) (k : Z) (v : V).

Lemma find_put_other :
  forall k k' v m,
    k' <> k -> StdMap.find k' (StdMap.put k v m) = StdMap.find k' m.
Proof.
  intros k k' v m Hne. induction m as [|[k0 v0] m IH]; simpl.
  - destruct (Z.eqb_spec k k'); [congruence | reflexivity].
  - destruct (k <? k0); simpl.
    + destruct (Z.eqb_spec k k'); [congruence | reflexivity].
    + destruct (Z.eqb_spec k k0) as [->|Hk]; simpl.
      * destruct (Z.eqb_spec k0 k'); [congruence | reflexivity].
      * now rewrite IH.
Qed.

Lemma find_erase_other :
  forall k k' m,
    k' <> k -> StdMap.find k' (StdMap.erase k m) = StdMap.find k' m.
Proof.
  intros k k' m Hne. induction m as [|[k0 v0] m IH]; simpl; [reflexivity|].
  destruct (Z.eqb_spec k0 k) as [->|Hk]; simpl.
  - destruct (Z.eqb_spec k k'); [congruence | reflexivity].
  - now rewrite IH.
Qed.

Lemma put_put :
  forall k v v' m, StdMap.put k v' (StdMap.put k v m) = StdMap.put k v' m.
Proof.
  intros k v v' m. induction m as [|[k0 v0] m IH]; simpl.
  - now rewrite Z.ltb_irrefl, Z.eqb_refl.
  - destruct (k <? k0) eqn:Hlt; simpl.
    + now rewrite Z.ltb_irrefl, Z.eqb_refl.
    + destruct (k =? k0) eqn:Heq; simpl.
      * now rewrite Z.ltb_irrefl, Z.eqb_refl.
      * now rewrite Hlt, Heq, IH.
Qed.

Lemma erase_put :
  forall k v m,
    map_sorted m = true -> StdMap.find k m = None ->
    StdMap.erase k (StdMap.put k v m) = m.
Proof.
  intros k v m. induction m as [|[k0 v0] m IH]; intros Hs Hf.
  - simpl. now rewrite Z.eqb_refl.
  - apply map_sorted_cons in Hs as [_ Hs]. simpl in Hf.
    destruct (Z.eqb_spec k0 k) as [->|Hk]; [discriminate|].
    cbn [StdMap.put]. destruct (k <? k0); [simpl; now rewrite Z.eqb_refl|].
    destruct (Z.eqb_spec k k0); [congruence|].
    cbn [StdMap.erase]. destruct (Z.eqb_spec k0 k); [congruence|].
    now rewrite IH.
Qed.

Lemma put_erase :
  forall k v m,
    map_sorted m = true -> StdMap.find k m = Some v ->
    StdMap.put k v (StdMap.erase k m) = m.
Proof.
  intros k v m. induction m as [|[k0 v0] m IH]; intros Hs Hf; [discriminate|].
  apply map_sorted_cons in Hs as [Hlt Hs]. simpl in Hf. cbn [StdMap.erase].
  destruct (Z.eqb_spec k0 k) as [->|Hk].
  - injection Hf as ->. destruct m as [|[k1 v1] m]; [reflexivity|].
    cbn [StdMap.put]. specialize (Hlt k1 (or_introl eq_refl)).
    destruct (Z.ltb_spec k k1); [reflexivity | lia].
  - pose proof (find_In _ _ _ Hf) as Hin.
    specialize (Hlt k (in_map fst _ _ Hin)). simpl in Hlt.
    cbn [StdMap.put]. destruct (Z.ltb_spec k k0); [lia|].
    destruct (Z.eqb_spec k k0); [lia|]. now rewrite IH.
Qed.

Lemma floor_binding_exact :
  forall k v m,
    map_sorted m = true -> StdMap.find k m = Some v ->
    floor_binding k m = Some (k, v).
Proof.
  intros k v m Hs Hf. pose proof (find_In _ _ _ Hf) as Hin.
  destruct (floor_binding_greatest k m k v Hs Hin (Z.le_refl k))
    as (k1 & v1 & Hfl & Hle).
  pose proof (floor_binding_In _ _ _ _ Hfl) as [Hin1 Hle1].
  assert (k1 = k) as -> by lia.
  pose proof (In_find _ _ _ Hs Hin1) as E. rewrite Hf in E.
  injection E as ->. exact Hfl.
Qed.

End MoreMapFacts.

(** ** Buckets of the index after an update *)

Lemma index_insert_bucket :
  forall h b ix pg' k',
    StdMap.subscript [] k' (StdMap.subscript [] pg' (index_insert h b ix))
    = if (pg' =? pgid (h b)) && (k' =? begin_ (h b))
      then StdSet.insert b (StdMap.subscript [] k' (StdMap.subscript [] pg' ix))
      else StdMap.subscript [] k' (StdMap.subscript [] pg' ix).
Proof.
  intros h b ix pg' k'. unfold index_insert.
  destruct (Z.eqb_spec pg' (pgid (h b))) as [->|Hpg]; cbn [andb].
  - unfold StdMap.subscript at 2. rewrite find_put_same.
    destruct (Z.eqb_spec k' (begin_ (h b))) as [->|Hk].
    + unfold StdMap.subscript at 1. now rewrite find_put_same.
    + unfold StdMap.subscript at 1. now rewrite find_put_other.
  - unfold StdMap.subscript at 2 6. now rewrite find_put_other.
Qed.

Lemma unlink_bucket :
  forall h s b pg' k',
    index_sorted (backoffs s) = true ->
    StdMap.subscript [] k'
      (StdMap.subscript [] pg' (backoffs (unlink h s b)))
    = if (pg' =? pgid (h b)) && (k' =? begin_ (h b))
      then StdSet.erase b
             (StdMap.subscript [] k' (StdMap.subscript [] pg' (backoffs s)))
      else StdMap.subscript [] k' (StdMap.subscript [] pg' (backoffs s)).
Proof.
  intros h s b pg' k' H. destruct (registered h s b) eqn:Hr.
  2:{ rewrite unlink_unregistered by exact Hr.
      destruct (Z.eqb_spec pg' (pgid (h b))) as [->|Hpg]; [|reflexivity].
      destruct (Z.eqb_spec k' (begin_ (h b))) as [->|Hk]; [|reflexivity].
      cbn [andb]. symmetry. apply set_erase_absent, Hr. }
  destruct (registered_find _ _ _ Hr) as (i & p & Hi & Hp & Hm).
  destruct (index_sorted_find _ _ _ H Hi) as [Hsi Hsp].
  pose proof (index_sorted_outer _ H) as Hso.
  unfold unlink. same_types. rewrite Hi, Hp, Hm. cbn [backoffs].
  unfold StdMap.subscript.
  destruct (Z.eqb_spec pg' (pgid (h b))) as [->|Hpg]; cbn [andb].
  - rewrite Hi.
    destruct (StdSet.erase b p) as [|x p'] eqn:He; cbn [StdSet.empty andb].
    + destruct (StdMap.erase (begin_ (h b)) i) as [|e i'] eqn:Hei;
        cbn [StdMap.empty].
      * rewrite (find_erase_same _ _ Hso). cbn [StdMap.find].
        destruct (Z.eqb_spec k' (begin_ (h b))) as [->|Hk].
        { now rewrite Hp, He. }
        rewrite <- (find_erase_other (begin_ (h b)) k' i Hk).
        same_types. now rewrite Hei.
      * rewrite find_put_same.
        destruct (Z.eqb_spec k' (begin_ (h b))) as [->|Hk].
        -- rewrite Hp, He, <- Hei. same_types.
           now rewrite (find_erase_same _ _ Hsi).
        -- rewrite <- Hei. same_types. now rewrite (find_erase_other _ _ _ Hk).
    + rewrite find_put_same.
      destruct (Z.eqb_spec k' (begin_ (h b))) as [->|Hk].
      * same_types. now rewrite find_put_same, Hp, He.
      * now rewrite find_put_other.
  - match goal with
    | |- context [StdMap.find pg' (if ?c then _ else _)] => destruct c
    end.
    + now rewrite find_erase_other.
    + now rewrite find_put_other.
Qed.

(** ** State names *)

(** X1: [get_state_name] names the three states apart and answers "???" for
    every other state value; the predicates [is_new], [is_acked] and
    [is_deleting] agree with the names, so at most one of them holds. *)
Theorem get_state_name_states :
  forall b,
    (get_state_name b = "new"%string <-> is_new b = true)
    /\ (get_state_name b = "acked"%string <-> is_acked b = true)
    /\ (get_state_name b = "deleting"%string <-> is_deleting b = true)
    /\ (get_state_name b = "???"%string <->
        is_new b || is_acked b || is_deleting b = false).
Proof.
  intros b. unfold get_state_name, is_new, is_acked, is_deleting,
    STATE_NEW, STATE_ACKED, STATE_DELETING.
  destruct (Z.eqb_spec (state b) 1) as [E1|E1];
    destruct (Z.eqb_spec (state b) 2) as [E2|E2];
    destruct (Z.eqb_spec (state b) 3) as [E3|E3];
    try lia; cbn [orb]; repeat split; intros; try reflexivity;
    discriminate.
Qed.

(** ** Which tokens are registered after a call *)

(** X2: after [add_backoff] the token is in its target set, and every other
    token is registered exactly as it was before. *)
Theorem add_backoff_registers :
  forall h s b,
    count_matches_index s = true ->
    exists s1,
      add_backoff h s b
      = ([Lock_backoff_lock; Unlock_backoff_lock], Ret s1)
      /\ registered h s1 b = true
      /\ forall q, registered h s1 q = (q =? b) || registered h s q.
Proof.
  intros h s b Hc. eexists. split; [apply add_backoff_returns, Hc|].
  assert (Hq : forall q,
    registered h {| backoff_count := wrap_int (backoff_count s + 1);
                    backoffs := index_insert h b (backoffs s) |} q
    = (q =? b) || registered h s q).
  { intros q. unfold registered. cbn [backoffs].
    rewrite index_insert_bucket.
    destruct (Z.eqb_spec q b) as [->|Hne].
    - rewrite !Z.eqb_refl. cbn [andb orb]. apply set_insert_mem.
    - destruct ((pgid (h q) =? pgid (h b)) && (begin_ (h q) =? begin_ (h b)));
        [|reflexivity].
      rewrite set_mem_insert.
      destruct (Z.eqb_spec b q); [congruence | reflexivity]. }
  split; [|exact Hq]. rewrite Hq, Z.eqb_refl. reflexivity.
Qed.

Lemma add_backoff_registers_witness :
  exists s1,
    add_backoff heap_disjoint
      {| backoff_count := 1; backoffs := [(7, [(0, [1])])] |} 2
    = ([Lock_backoff_lock; Unlock_backoff_lock], Ret s1)
    /\ registered heap_disjoint s1 2 = true
    /\ forall q,
         registered heap_disjoint s1 q
         = (q =? 2)
           || registered heap_disjoint
                {| backoff_count := 1; backoffs := [(7, [(0, [1])])] |} q.
Proof.
  apply (add_backoff_registers heap_disjoint
           {| backoff_count := 1; backoffs := [(7, [(0, [1])])] |} 2).
  reflexivity.
Defined.

(** X3: after a call of [rm_backoff] that returns, the token is registered
    no more, and every other token is registered exactly as it was before. *)
Theorem rm_backoff_unregisters_only :
  forall me this h s b tr s1,
    index_sorted (backoffs s) = true ->
    rm_backoff me this h s b = (tr, Ret s1) ->
    forall q, registered h s1 q = negb (q =? b) && registered h s q.
Proof.
  intros me this h s b tr s1 Hs Hrm q.
  apply rm_backoff_returned in Hrm as [-> _].
  unfold registered. rewrite (unlink_bucket h s b _ _ Hs).
  destruct (Z.eqb_spec q b) as [->|Hne].
  - rewrite !Z.eqb_refl. cbn [andb negb]. apply set_erase_mem.
    destruct (subscript_pg_sorted _ (pgid (h b)) Hs) as [_ Hp].
    apply subscript_set_sorted, Hp.
  - cbn [negb andb].
    destruct ((pgid (h q) =? pgid (h b)) && (begin_ (h q) =? begin_ (h b)));
      [|reflexivity].
    apply set_mem_erase_other, Hne.
Qed.

Lemma rm_backoff_unregisters_only_witness :
  registered heap_disjoint
    {| backoff_count := 1; backoffs := [(7, [(5, [2])])] |} 2
  = negb (2 =? 1) && registered heap_disjoint session_disjoint 2.
Proof.
  apply (rm_backoff_unregisters_only 0 100 heap_disjoint session_disjoint 1
           [Lock_backoff_lock; Unlock_backoff_lock]).
  - reflexivity.
  - reflexivity.
Defined.

(** ** Round trips *)

Lemma no_empty_find :
  forall ix pgid0 i,
    no_empty_buckets ix = true -> StdMap.find pgid0 ix = Some i ->
    StdMap.empty i = false
    /\ forall k p, StdMap.find k i = Some p -> StdSet.empty p = false.
Proof.
  intros ix pgid0 i H Hi. unfold no_empty_buckets in H.
  pose proof (find_forallb _ _ _ _ H Hi) as Hne. cbn [snd] in Hne.
  apply andb_true_iff in Hne as [H1 H2]. split.
  - now apply negb_true_iff.
  - intros k p Hp. pose proof (find_forallb _ _ _ _ H2 Hp) as H3.
    cbn [snd] in H3. now apply negb_true_iff.
Qed.

Lemma unlink_index_insert :
  forall h c c' b ix,
    index_sorted ix = true ->
    no_empty_buckets ix = true ->
    registered h {| backoff_count := c; backoffs := ix |} b = false ->
    backoffs (unlink h {| backoff_count := c';
                          backoffs := index_insert h b ix |} b) = ix.
Proof.
  intros h c c' b ix Hs Hne Hr.
  pose proof (index_sorted_outer _ Hs) as Hso.
  unfold registered, StdMap.subscript in Hr. cbn [backoffs] in Hr.
  unfold unlink, index_insert, StdMap.subscript. cbn [backoffs].
  same_types. rewrite find_put_same.
  destruct (StdMap.find (pgid (h b)) ix) as [i|] eqn:Hi.
  - destruct (index_sorted_find _ _ _ Hs Hi) as [Hsi Hsp].
    destruct (no_empty_find _ _ _ Hne Hi) as [Hei Hep].
    rewrite find_put_same.
    destruct (StdMap.find (begin_ (h b)) i) as [p|] eqn:Hp.
    + rewrite set_insert_mem.
      rewrite (set_erase_insert b p (sets_sorted_find _ _ _ Hsp Hp) Hr).
      rewrite (Hep _ _ Hp). cbn [andb backoffs].
      rewrite !put_put. same_types. rewrite (put_same _ _ _ Hsi Hp).
      apply (put_same _ _ _ Hso Hi).
    + cbn [StdSet.insert StdSet.mem StdSet.erase StdSet.empty andb].
      rewrite ?Z.eqb_refl. cbn [orb StdSet.erase]. rewrite ?Z.eqb_refl.
      cbn [StdSet.empty andb backoffs].
      rewrite (erase_put _ _ _ Hsi Hp). same_types. rewrite Hei.
      rewrite put_put. apply (put_same _ _ _ Hso Hi).
  - cbn [StdMap.find StdMap.put StdSet.insert]. rewrite ?Z.eqb_refl.
    cbn [StdSet.mem]. rewrite ?Z.eqb_refl.
    cbn [orb StdSet.erase]. rewrite ?Z.eqb_refl.
    cbn [StdSet.empty StdMap.erase andb].
    rewrite ?Z.eqb_refl. cbn [StdMap.empty backoffs].
    apply (erase_put _ _ _ Hso Hi).
Qed.

Lemma index_insert_unlink :
  forall h s b,
    index_sorted (backoffs s) = true ->
    registered h s b = true ->
    index_insert h b (backoffs (unlink h s b)) = backoffs s.
Proof.
  intros h s b Hs Hr.
  destruct (registered_find _ _ _ Hr) as (i & p & Hi & Hp & Hm).
  destruct (index_sorted_find _ _ _ Hs Hi) as [Hsi Hsp].
  pose proof (index_sorted_outer _ Hs) as Hso.
  pose proof (set_insert_erase b p (sets_sorted_find _ _ _ Hsp Hp) Hm) as Hie.
  unfold index_insert, unlink, StdMap.subscript. same_types.
  rewrite Hi, Hp, Hm. cbn [backoffs].
  destruct (StdSet.erase b p) as [|x p'] eqn:He; cbn [StdSet.empty andb].
  - destruct (StdMap.erase (begin_ (h b)) i) as [|e i'] eqn:Hei;
      cbn [StdMap.empty].
    + rewrite (find_erase_same _ _ Hso). cbn [StdMap.find].
      same_types. rewrite Hie. same_types. rewrite <- Hei.
      rewrite (put_erase _ _ _ Hsi Hp). apply (put_erase _ _ _ Hso Hi).
    + rewrite find_put_same. same_types. rewrite <- Hei.
      rewrite (find_erase_same _ _ Hsi). same_types. rewrite Hie.
      rewrite (put_erase _ _ _ Hsi Hp), put_put.
      apply (put_same _ _ _ Hso Hi).
  - rewrite !find_put_same. same_types. rewrite Hie.
    rewrite !put_put. rewrite (put_same _ _ _ Hsi Hp).
    apply (put_same _ _ _ Hso Hi).
Qed.

Lemma Session_eq :
  forall s s',
    backoff_count s = backoff_count s' -> backoffs s = backoffs s' -> s = s'.
Proof. intros [c ix] [c' ix']. simpl. now intros -> ->. Qed.

Lemma registered_index_insert :
  forall h c c' b ix,
    registered h {| backoff_count := c; backoffs := index_insert h b ix |} b
    = true
    /\ forall q,
         registered h {| backoff_count := c; backoffs := index_insert h b ix |}
           q
         = (q =? b)
           || registered h {| backoff_count := c'; backoffs := ix |} q.
Proof.
  intros h c c' b ix.
  assert (Hq : forall q,
    registered h {| backoff_count := c; backoffs := index_insert h b ix |} q
    = (q =? b) || registered h {| backoff_count := c'; backoffs := ix |} q).
  { intros q. unfold registered. cbn [backoffs].
    rewrite index_insert_bucket.
    destruct (Z.eqb_spec q b) as [->|Hne].
    - rewrite !Z.eqb_refl. cbn [andb orb]. apply set_insert_mem.
    - destruct ((pgid (h q) =? pgid (h b)) && (begin_ (h q) =? begin_ (h b)));
        [|reflexivity].
      rewrite set_mem_insert.
      destruct (Z.eqb_spec b q); [congruence | reflexivity]. }
  split; [|exact Hq]. rewrite Hq, Z.eqb_refl. reflexivity.
Qed.

Lemma wrap_int_succ_pred :
  forall c, - 2 ^ 31 <= c < 2 ^ 31 -> wrap_int (wrap_int (c + 1) - 1) = c.
Proof. intros c H. wrap_arith. Qed.

Lemma wrap_int_pred_succ :
  forall c, - 2 ^ 31 <= c < 2 ^ 31 -> wrap_int (wrap_int (c - 1) + 1) = c.
Proof. intros c H. wrap_arith. Qed.

(** X4: on a session whose index is in order and has no empty bucket,
    [add_backoff] of a token that is not yet registered followed by
    [rm_backoff] of the same token (called under its preconditions) gives
    back the session exactly as it was: same counter, same nested map. *)
Theorem add_then_rm_restores :
  forall me this h s b,
    index_sorted (backoffs s) = true ->
    no_empty_buckets (backoffs s) = true ->
    count_matches_index s = true ->
    registered h s b = false ->
    - 2 ^ 31 <= backoff_count s < 2 ^ 31 ->
    is_locked_by_me me (lock (h b)) = true ->
    session (h b) = Some this ->
    exists s1,
      add_backoff h s b
      = ([Lock_backoff_lock; Unlock_backoff_lock], Ret s1)
      /\ rm_backoff me this h s1 b
         = ([Lock_backoff_lock; Unlock_backoff_lock], Ret s).
Proof.
  intros me this h [c ix] b Hs Hne Hc Hr Hrange Hl Hses.
  cbn [backoffs backoff_count] in *.
  eexists. split; [apply add_backoff_returns, Hc|].
  cbn [backoff_count backoffs].
  set (s1 := {| backoff_count := wrap_int (c + 1);
                backoffs := index_insert h b ix |}).
  assert (Hu : unlink h s1 b = {| backoff_count := c; backoffs := ix |}).
  { apply Session_eq; cbn [backoff_count backoffs].
    - rewrite unlink_count.
      destruct (registered_index_insert h (wrap_int (c + 1)) c b ix)
        as [Hreg _].
      fold s1 in Hreg. rewrite Hreg. subst s1. cbn [backoff_count].
      apply wrap_int_succ_pred, Hrange.
    - subst s1. apply (unlink_index_insert h c); assumption. }
  unfold rm_backoff, ceph_assert. rewrite Hl, Hses, Z.eqb_refl, Hu, Hc.
  reflexivity.
Qed.

Lemma add_then_rm_restores_witness :
  exists s1,
    add_backoff heap_disjoint
      {| backoff_count := 1; backoffs := [(7, [(0, [1])])] |} 2
    = ([Lock_backoff_lock; Unlock_backoff_lock], Ret s1)
    /\ rm_backoff 0 100 heap_disjoint s1 2
       = ([Lock_backoff_lock; Unlock_backoff_lock],
          Ret {| backoff_count := 1; backoffs := [(7, [(0, [1])])] |}).
Proof.
  apply (add_then_rm_restores 0 100 heap_disjoint
           {| backoff_count := 1; backoffs := [(7, [(0, [1])])] |} 2);
    try reflexivity.
  cbn. split; [discriminate | reflexivity].
Defined.

(** X5: on a session whose index is in order, a call of [rm_backoff] that
    returns after unlinking a registered token, followed by [add_backoff] of
    the same token, gives back the session exactly as it was, pruned buckets
    included. *)
Theorem rm_then_add_restores :
  forall me this h s b tr s1,
    index_sorted (backoffs s) = true ->
    registered h s b = true ->
    - 2 ^ 31 <= backoff_count s < 2 ^ 31 ->
    rm_backoff me this h s b = (tr, Ret s1) ->
    add_backoff h s1 b
    = ([Lock_backoff_lock; Unlock_backoff_lock], Ret s).
Proof.
  intros me this h s b tr s1 Hs Hr Hrange Hrm.
  apply rm_backoff_returned in Hrm as [-> Hc].
  rewrite (add_backoff_returns _ _ _ Hc). do 2 f_equal.
  apply Session_eq; cbn [backoff_count backoffs].
  - rewrite unlink_count, Hr. apply wrap_int_pred_succ, Hrange.
  - apply index_insert_unlink; assumption.
Qed.

Lemma rm_then_add_restores_witness :
  add_backoff heap_disjoint
    {| backoff_count := 1; backoffs := [(7, [(5, [2])])] |} 1
  = ([Lock_backoff_lock; Unlock_backoff_lock], Ret session_disjoint).
Proof.
  apply (rm_then_add_restores 0 100 heap_disjoint session_disjoint 1
           [Lock_backoff_lock; Unlock_backoff_lock]);
    try reflexivity.
  cbn. split; [discriminate | reflexivity].
Defined.

(** ** What the lookup looks at *)

(** The bucket the lookup scans: under the shard's map, the binding with the
    greatest start key not above [oid]. *)
Lemma have_backoff_floor :
  forall h s pgid0 oid,
    index_sorted (backoffs s) = true ->
    count_matches_index s = true ->
    snd (have_backoff h s pgid0 oid)
    = Ret match StdMap.find pgid0 (backoffs s) with
          | Some i =>
              match floor_binding oid i with
              | Some (k, qs) => scan h oid (cmp oid k) qs
              | None => None
              end
          | None => None
          end.
Proof.
  intros h s pgid0 oid Hs Hc. unfold have_backoff, ceph_assert.
  rewrite Hc. destruct (backoff_count s =? 0) eqn:Hz.
  - unfold count_matches_index in Hc. rewrite Hz in Hc.
    destruct (backoffs s); [reflexivity | discriminate Hc].
  - destruct (StdMap.find pgid0 (backoffs s)) as [i|] eqn:Hi; [|reflexivity].
    cbn [Locker snd]. f_equal. apply lookup_in_pg_floor.
    apply (index_sorted_find _ _ _ Hs Hi).
Qed.

Lemma have_backoff_some :
  forall h s pgid0 oid q,
    index_sorted (backoffs s) = true ->
    snd (have_backoff h s pgid0 oid) = Ret (Some q) ->
    exists i k qs,
      StdMap.find pgid0 (backoffs s) = Some i
      /\ floor_binding oid i = Some (k, qs)
      /\ scan h oid (cmp oid k) qs = Some q.
Proof.
  intros h s pgid0 oid q Hs. unfold have_backoff, ceph_assert.
  destruct (backoff_count s =? 0); [discriminate|].
  destruct (count_matches_index s); [|discriminate].
  destruct (StdMap.find pgid0 (backoffs s)) as [i|] eqn:Hi; [|discriminate].
  cbn [Locker snd]. intros [= Hl].
  rewrite (lookup_in_pg_floor h oid i) in Hl
    by apply (index_sorted_find _ _ _ Hs Hi).
  destruct (floor_binding oid i) as [[k qs]|] eqn:Hf; [|discriminate].
  exists i, k, qs. auto.
Qed.

Lemma wf_session_parts :
  forall h s,
    wf_session h s = true ->
    index_sorted (backoffs s) = true
    /\ no_empty_buckets (backoffs s) = true
    /\ keyed_by_token h (backoffs s) = true
    /\ count_matches_index s = true.
Proof.
  intros h s H. unfold wf_session in H.
  apply andb_true_iff in H as [H H4].
  apply andb_true_iff in H as [H H3].
  apply andb_true_iff in H as [H1 H2]. auto.
Qed.

(** X6: what [have_backoff] returns on a well-formed session, with no
    assumption on how the registered ranges overlap.  The token is registered
    for the shard and blocks the key; no token of the shard that starts at or
    below the key starts later than it; and among the tokens with the same
    start that block the key it is the one with the lowest address. *)
Theorem have_backoff_returns_first_match :
  forall h s pgid0 oid b,
    wf_session h s = true ->
    snd (have_backoff h s pgid0 oid) = Ret (Some b) ->
    In b (tokens_of_pg s pgid0)
    /\ blocks h oid b = true
    /\ (forall q, In q (tokens_of_pg s pgid0) ->
          begin_ (h q) <= oid -> begin_ (h q) <= begin_ (h b))
    /\ (forall q, In q (tokens_of_pg s pgid0) ->
          begin_ (h q) = begin_ (h b) -> blocks h oid q = true -> b <= q).
Proof.
  intros h s pgid0 oid b Hwf Hret.
  destruct (wf_session_parts _ _ Hwf) as (Hs & _ & _ & _).
  destruct (have_backoff_some _ _ _ _ _ Hs Hret)
    as (i & k & qs & Hi & Hf & Hscan).
  destruct (wf_session_find _ _ _ _ Hwf Hi) as [Hsi Hkey].
  destruct (index_sorted_find _ _ _ Hs Hi) as [_ Hsp].
  pose proof (floor_binding_In _ _ _ _ Hf) as [Hin Hle].
  pose proof (scan_some _ _ _ _ _ Hscan) as [Hbq Hr].
  destruct (Hkey _ _ Hin) as [_ Hbeg]. pose proof (Hbeg b Hbq) as Hb.
  unfold tokens_of_pg. rewrite (subscript_find _ _ _ _ Hi).
  assert (Hbl : blocks h oid b = true).
  { apply blocks_spec.
    destruct (cmp_sign oid k) as [[-> _]|[[Hlt _]|[Hgt Hc]]]; [auto | lia |].
    destruct Hr as [Hr|Hr]; [lia|]. right. lia. }
  split; [apply In_tokens; eauto|]. split; [exact Hbl|]. split.
  - intros q Hq Hqle. apply In_tokens in Hq as (k' & qs' & Hin' & Hq').
    destruct (Hkey _ _ Hin') as [_ Hbeg']. rewrite (Hbeg' q Hq') in *.
    destruct (floor_binding_greatest oid i k' qs' Hsi Hin' Hqle)
      as (k1 & v1 & Hf1 & Hk1).
    rewrite Hf in Hf1. injection Hf1 as <- <-. lia.
  - intros q Hq Hsame Hqbl. apply In_tokens in Hq as (k' & qs' & Hin' & Hq').
    destruct (Hkey _ _ Hin') as [_ Hbeg'].
    assert (k' = k) as -> by (rewrite <- (Hbeg' q Hq'); lia).
    assert (qs' = qs) as ->.
    { pose proof (In_find _ _ _ Hsi Hin) as E1.
      pose proof (In_find _ _ _ Hsi Hin') as E2. congruence. }
    unfold scan in Hscan.
    apply (find_least _ qs b q (sets_sorted_find _ _ _ Hsp
                                  (In_find _ _ _ Hsi Hin)) Hscan Hq').
    apply blocks_spec in Hqbl. rewrite (Hbeg' q Hq') in Hqbl.
    destruct (cmp_sign oid k) as [[_ ->]|[[Hlt _]|[Hgt _]]];
      [reflexivity | lia |].
    apply orb_true_iff. right. apply Z.ltb_lt. lia.
Qed.

Lemma have_backoff_returns_first_match_witness :
  In 2 (tokens_of_pg session_disjoint 7)
  /\ blocks heap_disjoint 6 2 = true
  /\ (forall q, In q (tokens_of_pg session_disjoint 7) ->
        begin_ (heap_disjoint q) <= 6 ->
        begin_ (heap_disjoint q) <= begin_ (heap_disjoint 2))
  /\ (forall q, In q (tokens_of_pg session_disjoint 7) ->
        begin_ (heap_disjoint q) = begin_ (heap_disjoint 2) ->
        blocks heap_disjoint 6 q = true -> 2 <= q).
Proof.
  apply (have_backoff_returns_first_match heap_disjoint session_disjoint 7 6 2).
  - reflexivity.
  - reflexivity.
Defined.

Lemma wrap_int_succ_nonzero :
  forall c, - 2 ^ 31 <= c < 2 ^ 31 -> c <> -1 -> wrap_int (c + 1) <> 0.
Proof. intros c H Hne. wrap_arith. Qed.

(** X7: a token that has just been added blocks its own start key.  After
    [add_backoff] (the counter not wrapping to zero), [have_backoff] at the
    token's shard and [begin] takes the lock and returns a token of the set
    the new token was put in: the token itself, or one with a lower address
    that shares its start key. *)
Theorem add_backoff_then_lookup_begin :
  forall h s b,
    index_sorted (backoffs s) = true ->
    count_matches_index s = true ->
    - 2 ^ 31 <= backoff_count s < 2 ^ 31 ->
    backoff_count s <> -1 ->
    exists s1 q,
      add_backoff h s b
      = ([Lock_backoff_lock; Unlock_backoff_lock], Ret s1)
      /\ have_backoff h s1 (pgid (h b)) (begin_ (h b))
         = ([Lock_backoff_lock; Unlock_backoff_lock], Ret (Some q))
      /\ StdSet.mem q (bucket h s1 b) = true
      /\ q <= b.
Proof.
  intros h s b Hs Hc Hrange Hm1.
  destruct (subscript_pg_sorted _ (pgid (h b)) Hs) as [Hsi Hsp].
  set (p := StdMap.subscript [] (begin_ (h b))
              (StdMap.subscript [] (pgid (h b)) (backoffs s))).
  destruct (StdSet.insert b p) as [|q t] eqn:Hins.
  { pose proof (set_insert_not_empty b p) as E. rewrite Hins in E.
    discriminate E. }
  eexists. exists q. split; [apply add_backoff_returns, Hc|].
  pose proof (wrap_int_succ_nonzero _ Hrange Hm1) as Hnz.
  split; [|split].
  - unfold have_backoff, ceph_assert, count_matches_index.
    cbn [backoff_count backoffs].
    destruct (Z.eqb_spec (wrap_int (backoff_count s + 1)) 0) as [E|_];
      [contradiction|].
    rewrite index_insert_not_empty. cbn [Bool.eqb].
    unfold index_insert. rewrite find_put_same. cbn [Locker].
    do 3 f_equal.
    rewrite lookup_in_pg_floor by (apply put_sorted, Hsi).
    rewrite (floor_binding_exact (begin_ (h b)) (StdSet.insert b p))
      by (apply put_sorted, Hsi || apply find_put_same).
    rewrite cmp_refl. fold p in Hins. rewrite Hins. reflexivity.
  - unfold bucket. cbn [backoffs]. rewrite index_insert_bucket.
    rewrite !Z.eqb_refl. cbn [andb]. fold p. rewrite Hins.
    simpl. now rewrite Z.eqb_refl.
  - apply (set_insert_head_le b p q t Hins).
Qed.

Lemma add_backoff_then_lookup_begin_witness :
  exists s1 q,
    add_backoff heap_overlap
      {| backoff_count := 1; backoffs := [(7, [(0, [1])])] |} 2
    = ([Lock_backoff_lock; Unlock_backoff_lock], Ret s1)
    /\ have_backoff heap_overlap s1 7 5
       = ([Lock_backoff_lock; Unlock_backoff_lock], Ret (Some q))
    /\ StdSet.mem q (bucket heap_overlap s1 2) = true
    /\ q <= 2.
Proof.
  apply (add_backoff_then_lookup_begin heap_overlap
           {| backoff_count := 1; backoffs := [(7, [(0, [1])])] |} 2);
    try reflexivity; try discriminate.
  cbn. split; [discriminate | reflexivity].
Defined.

Lemma unlink_wf_index :
  forall h s b,
    index_sorted (backoffs s) = true ->
    keyed_by_token h (backoffs s) = true ->
    index_sorted (backoffs (unlink h s b)) = true
    /\ keyed_by_token h (backoffs (unlink h s b)) = true.
Proof.
  intros h s b Hs Hk. split; [apply unlink_sorted, Hs | apply unlink_keyed, Hk].
Qed.

Lemma keyed_find :
  forall h ix pgid0 i k qs q,
    keyed_by_token h ix = true ->
    StdMap.find pgid0 ix = Some i -> In (k, qs) i -> In q qs ->
    pgid (h q) = pgid0 /\ begin_ (h q) = k.
Proof.
  intros h ix pgid0 i k qs q Hk Hi Hin Hq. unfold keyed_by_token in Hk.
  pose proof (find_forallb _ _ _ _ Hk Hi) as H1. cbn [fst snd] in H1.
  rewrite forallb_forall in H1. specialize (H1 _ Hin). cbn [fst snd] in H1.
  rewrite forallb_forall in H1. specialize (H1 _ Hq).
  apply andb_true_iff in H1 as [Ha Hb].
  split; now apply Z.eqb_eq.
Qed.

(** X8: a token that [rm_backoff] has removed is never handed out again.
    On a well-formed session, after a call of [rm_backoff] that returns, no
    lookup returns that token, whatever the shard id and the key. *)
Theorem rm_backoff_then_never_returned :
  forall me this h s b tr s1,
    wf_session h s = true ->
    rm_backoff me this h s b = (tr, Ret s1) ->
    forall pgid0 oid, snd (have_backoff h s1 pgid0 oid) <> Ret (Some b).
Proof.
  intros me this h s b tr s1 Hwf Hrm pgid0 oid Hret.
  destruct (wf_session_parts _ _ Hwf) as (Hs & _ & Hk & _).
  apply rm_backoff_returned in Hrm as [-> _].
  destruct (unlink_wf_index h s b Hs Hk) as [Hs1 Hk1].
  destruct (have_backoff_some _ _ _ _ _ Hs1 Hret)
    as (i & k & qs & Hi & Hf & Hscan).
  pose proof (floor_binding_In _ _ _ _ Hf) as [Hin _].
  pose proof (scan_some _ _ _ _ _ Hscan) as [Hbq _].
  destruct (keyed_find _ _ _ _ _ _ _ Hk1 Hi Hin Hbq) as [<- <-].
  destruct (index_sorted_find _ _ _ Hs1 Hi) as [Hsi _].
  pose proof (unlink_unregisters h s b Hs) as Hr.
  unfold registered in Hr.
  rewrite (subscript_find _ _ _ _ Hi) in Hr.
  rewrite (subscript_find _ _ _ _ (In_find _ _ _ Hsi Hin)) in Hr.
  apply set_mem_In in Hbq. congruence.
Qed.

Lemma rm_backoff_then_never_returned_witness :
  wf_session heap_disjoint session_disjoint = true
  /\ snd (have_backoff heap_disjoint
            {| backoff_count := 1; backoffs := [(7, [(5, [2])])] |} 7 6)
     <> Ret (Some 1).
Proof.
  split; [reflexivity|].
  apply (rm_backoff_then_never_returned 0 100 heap_disjoint session_disjoint 1
           [Lock_backoff_lock; Unlock_backoff_lock]).
  - reflexivity.
  - reflexivity.
Defined.

(** X9: a key below every registered start is not blocked.  On a
    well-formed session, when every token registered for the shard starts
    above the key (in particular when the shard has no token at all),
    [have_backoff] returns null. *)
Theorem have_backoff_below_every_begin :
  forall h s pgid0 oid,
    wf_session h s = true ->
    (forall q, In q (tokens_of_pg s pgid0) -> oid < begin_ (h q)) ->
    snd (have_backoff h s pgid0 oid) = Ret None.
Proof.
  intros h s pgid0 oid Hwf Habove.
  destruct (wf_session_parts _ _ Hwf) as (Hs & _ & _ & Hc).
  rewrite (have_backoff_floor _ _ _ _ Hs Hc). f_equal.
  destruct (StdMap.find pgid0 (backoffs s)) as [i|] eqn:Hi; [|reflexivity].
  destruct (floor_binding oid i) as [[k qs]|] eqn:Hf; [|reflexivity].
  exfalso. pose proof (floor_binding_In _ _ _ _ Hf) as [Hin Hle].
  destruct (wf_session_find _ _ _ _ Hwf Hi) as [_ Hkey].
  destruct (Hkey _ _ Hin) as [Hnil Hbeg].
  destruct qs as [|q qs]; [congruence|].
  specialize (Hbeg q (or_introl eq_refl)).
  assert (Hq : In q (tokens_of_pg s pgid0)).
  { unfold tokens_of_pg. rewrite (subscript_find _ _ _ _ Hi).
    apply In_tokens. exists k, (q :: qs). split; [exact Hin | now left]. }
  specialize (Habove q Hq). lia.
Qed.

Lemma have_backoff_below_every_begin_witness :
  snd (have_backoff heap_disjoint
         {| backoff_count := 1; backoffs := [(7, [(5, [2])])] |} 7 3)
  = Ret None.
Proof.
  apply (have_backoff_below_every_begin heap_disjoint
           {| backoff_count := 1; backoffs := [(7, [(5, [2])])] |} 7 3).
  - reflexivity.
  - intros q [<-|[]]. reflexivity.
Defined.

(** ** Lookups on other shards *)

Lemma have_backoff_result :
  forall h s pgid0 oid,
    count_matches_index s = true ->
    snd (have_backoff h s pgid0 oid)
    = Ret match StdMap.find pgid0 (backoffs s) with
          | Some i => lookup_in_pg h oid i
          | None => None
          end.
Proof.
  intros h s pgid0 oid Hc. unfold have_backoff, ceph_assert.
  rewrite Hc. destruct (backoff_count s =? 0) eqn:Hz.
  - unfold count_matches_index in Hc. rewrite Hz in Hc.
    destruct (backoffs s); [reflexivity | discriminate Hc].
  - now destruct (StdMap.find pgid0 (backoffs s)).
Qed.

Lemma unlink_find_other :
  forall h s b pgid0,
    pgid0 <> pgid (h b) ->
    StdMap.find pgid0 (backoffs (unlink h s b))
    = StdMap.find pgid0 (backoffs s).
Proof.
  intros h s b pgid0 Hne. unfold unlink.
  destruct (StdMap.find (pgid (h b)) (backoffs s)) as [i|]; [|reflexivity].
  destruct (StdMap.find (begin_ (h b)) i) as [p|]; [|reflexivity].
  destruct (StdSet.mem b p); [|reflexivity]. cbn [backoffs].
  match goal with
  | |- context [if ?c then StdMap.erase _ _ else _] => destruct c
  end.
  - now apply find_erase_other.
  - now apply find_put_other.
Qed.

(** X10: [add_backoff] for one shard leaves the lookups on every other shard
    as they were (the counter not wrapping to zero): same answer for every
    key, whatever the tokens hold at that time. *)
Theorem add_backoff_other_pg_lookup :
  forall h h' s b pgid0 oid,
    count_matches_index s = true ->
    - 2 ^ 31 <= backoff_count s < 2 ^ 31 ->
    backoff_count s <> -1 ->
    pgid0 <> pgid (h b) ->
    exists s1,
      add_backoff h s b
      = ([Lock_backoff_lock; Unlock_backoff_lock], Ret s1)
      /\ snd (have_backoff h' s1 pgid0 oid)
         = snd (have_backoff h' s pgid0 oid).
Proof.
  intros h h' s b pgid0 oid Hc Hrange Hm1 Hne.
  eexists. split; [apply add_backoff_returns, Hc|].
  pose proof (wrap_int_succ_nonzero _ Hrange Hm1) as Hnz.
  rewrite (have_backoff_result h' s _ _ Hc).
  rewrite have_backoff_result.
  - cbn [backoffs]. unfold index_insert. now rewrite find_put_other.
  - unfold count_matches_index. cbn [backoff_count backoffs].
    rewrite index_insert_not_empty.
    destruct (Z.eqb_spec (wrap_int (backoff_count s + 1)) 0);
      [contradiction | reflexivity].
Qed.

Lemma add_backoff_other_pg_lookup_witness :
  exists s1,
    add_backoff heap_disjoint session_disjoint 3
    = ([Lock_backoff_lock; Unlock_backoff_lock], Ret s1)
    /\ snd (have_backoff heap_disjoint s1 7 6)
       = snd (have_backoff heap_disjoint session_disjoint 7 6).
Proof.
  apply (add_backoff_other_pg_lookup heap_disjoint heap_disjoint
           session_disjoint 3 7 6);
    try reflexivity; try discriminate.
  cbn. split; [discriminate | reflexivity].
Defined.

(** X11: a call of [rm_backoff] that returns leaves the lookups on every
    shard other than the token's as they were. *)
Theorem rm_backoff_other_pg_lookup :
  forall me this h h' s b tr s1 pgid0 oid,
    count_matches_index s = true ->
    rm_backoff me this h s b = (tr, Ret s1) ->
    pgid0 <> pgid (h b) ->
    snd (have_backoff h' s1 pgid0 oid) = snd (have_backoff h' s pgid0 oid).
Proof.
  intros me this h h' s b tr s1 pgid0 oid Hc Hrm Hne.
  apply rm_backoff_returned in Hrm as [-> Hc1].
  rewrite (have_backoff_result h' _ _ _ Hc1).
  rewrite (have_backoff_result h' _ _ _ Hc).
  now rewrite unlink_find_other.
Qed.

Lemma rm_backoff_other_pg_lookup_witness :
  snd (have_backoff heap_disjoint
         {| backoff_count := 2; backoffs := [(7, [(0, [1]); (5, [2])])] |}
         7 6)
  = snd (have_backoff heap_disjoint
           {| backoff_count := 3;
              backoffs := [(7, [(0, [1]); (5, [2])]); (8, [(3, [3])])] |}
           7 6).
Proof.
  apply (rm_backoff_other_pg_lookup 0 100 heap_disjoint heap_disjoint
           {| backoff_count := 3;
              backoffs := [(7, [(0, [1]); (5, [2])]); (8, [(3, [3])])] |}
           3 [Lock_backoff_lock; Unlock_backoff_lock]).
  - reflexivity.
  - reflexivity.
  - discriminate.
Defined.

(** ** An exact counter *)

Lemma exact_count_matches_index :
  forall s, exact_count s -> count_matches_index s = true.
Proof.
  intros s (Hs & Hne & Hc & _). unfold count_matches_index. rewrite Hc.
  destruct (StdMap.empty (backoffs s)) eqn:He.
  - destruct (backoffs s); [reflexivity | discriminate He].
  - pose proof (entries_positive _ Hne He).
    destruct (Z.eqb_spec (entries (backoffs s)) 0); [lia | reflexivity].
Qed.

(** X12: while [backoff_count] equals the number of stored tokens,
    [rm_backoff] called under its two preconditions never dies in its closing
    assertion: it returns, the counter drops by one exactly when the token
    was registered, and the counter still equals the number of stored
    tokens. *)
Theorem rm_backoff_exact_count :
  forall me this h s b,
    exact_count s ->
    is_locked_by_me me (lock (h b)) = true ->
    session (h b) = Some this ->
    exists s1,
      rm_backoff me this h s b
      = ([Lock_backoff_lock; Unlock_backoff_lock], Ret s1)
      /\ exact_count s1
      /\ backoff_count s1
         = backoff_count s - (if registered h s b then 1 else 0).
Proof.
  intros me this h s b Hex Hl Hses.
  pose proof Hex as (Hs & Hne & Hc & Hlt).
  pose proof (entries_nonneg (backoffs (unlink h s b))) as Hnn.
  pose proof (unlink_entries h s b Hs) as He.
  assert (Hcnt : backoff_count (unlink h s b)
                 = backoff_count s - (if registered h s b then 1 else 0)).
  { rewrite unlink_count. destruct (registered h s b); [|lia].
    apply wrap_int_small. change (2 ^ 31) with 2147483648 in *. lia. }
  assert (Hex1 : exact_count (unlink h s b)).
  { split; [apply unlink_sorted, Hs|]. split; [apply unlink_no_empty, Hne|].
    split; [|destruct (registered h s b); lia].
    rewrite Hcnt, He, Hc. reflexivity. }
  exists (unlink h s b). split; [|split; assumption].
  unfold rm_backoff, ceph_assert.
  rewrite Hl, Hses, Z.eqb_refl, (exact_count_matches_index _ Hex1).
  reflexivity.
Qed.

Lemma rm_backoff_exact_count_witness :
  exists s1,
    rm_backoff 0 100 heap_disjoint session_disjoint 1
    = ([Lock_backoff_lock; Unlock_backoff_lock], Ret s1)
    /\ exact_count s1
    /\ backoff_count s1
       = backoff_count session_disjoint
         - (if registered heap_disjoint session_disjoint 1 then 1 else 0).
Proof.
  apply (rm_backoff_exact_count 0 100 heap_disjoint session_disjoint 1).
  - repeat split.
  - reflexivity.
  - reflexivity.
Defined.

(** X13: while [backoff_count] equals the number of stored tokens,
    [add_backoff] of a token that is not yet registered returns with the
    counter one higher and still equal to the number of stored tokens, as long
    as that number fits an [int]. *)
Theorem add_backoff_exact_count :
  forall h s b,
    exact_count s ->
    registered h s b = false ->
    entries (backoffs s) + 1 < 2 ^ 31 ->
    exists s1,
      add_backoff h s b
      = ([Lock_backoff_lock; Unlock_backoff_lock], Ret s1)
      /\ exact_count s1
      /\ backoff_count s1 = backoff_count s + 1.
Proof.
  intros h s b Hex Hr Hfit.
  pose proof Hex as (Hs & Hne & Hc & Hlt).
  pose proof (entries_nonneg (backoffs s)) as Hnn.
  eexists. split; [apply add_backoff_returns, exact_count_matches_index, Hex|].
  assert (Hw : wrap_int (backoff_count s + 1) = backoff_count s + 1).
  { apply wrap_int_small. change (2 ^ 31) with 2147483648 in *. lia. }
  cbn [backoff_count backoffs]. split; [|exact Hw].
  split; [apply index_insert_sorted, Hs|].
  split; [apply index_insert_no_empty, Hne|]. cbn [backoff_count backoffs].
  unfold registered in Hr.
  rewrite Hw, (index_insert_entries _ _ _ Hs),
    (set_insert_absent_length _ _ Hr). lia.
Qed.

Lemma add_backoff_exact_count_witness :
  exists s1,
    add_backoff heap_disjoint
      {| backoff_count := 1; backoffs := [(7, [(0, [1])])] |} 2
    = ([Lock_backoff_lock; Unlock_backoff_lock], Ret s1)
    /\ exact_count s1
    /\ backoff_count s1 = 1 + 1.
Proof.
  apply (add_backoff_exact_count heap_disjoint
           {| backoff_count := 1; backoffs := [(7, [(0, [1])])] |} 2).
  - repeat split.
  - reflexivity.
  - reflexivity.
Defined.

(** ** The order of registrations *)

Lemma set_insert_comm :
  forall a b s,
    StdSet.insert a (StdSet.insert b s) = StdSet.insert b (StdSet.insert a s).
Proof.
  intros a b s. induction s as [|x s IH]; cbn [StdSet.insert].
  - destruct (Z.ltb_spec a b), (Z.ltb_spec b a), (Z.eqb_spec a b),
      (Z.eqb_spec b a); try lia; subst; reflexivity.
  - destruct (Z.ltb_spec a x), (Z.ltb_spec b x), (Z.eqb_spec a x),
      (Z.eqb_spec b x); cbn [StdSet.insert];
      repeat match goal with
      | |- context [?u <? ?v] => destruct (Z.ltb_spec u v); try lia
      | |- context [?u =? ?v] => destruct (Z.eqb_spec u v); try lia
      end; subst; try lia; try reflexivity; try (now rewrite IH).
Qed.

Lemma put_put_comm :
  forall {V} k1 k2 (v1 v2 : V) (m : StdMap.t V),
    k1 <> k2 ->
    StdMap.put k1 v1 (StdMap.put k2 v2 m)
    = StdMap.put k2 v2 (StdMap.put k1 v1 m).
Proof.
  intros V k1 k2 v1 v2 m Hne. induction m as [|[x v] m IH];
    cbn [StdMap.put].
  - destruct (Z.ltb_spec k1 k2), (Z.ltb_spec k2 k1), (Z.eqb_spec k1 k2),
      (Z.eqb_spec k2 k1); try lia; reflexivity.
  - destruct (Z.ltb_spec k1 x), (Z.ltb_spec k2 x), (Z.eqb_spec k1 x),
      (Z.eqb_spec k2 x); cbn [StdMap.put];
      repeat match goal with
      | |- context [?u <? ?v] => destruct (Z.ltb_spec u v); try lia
      | |- context [?u =? ?v] => destruct (Z.eqb_spec u v); try lia
      end; subst; try lia; try reflexivity; try (now rewrite IH).
Qed.

Lemma subscript_put_same :
  forall {V} (d : V) k v (m : StdMap.t V),
    StdMap.subscript d k (StdMap.put k v m) = v.
Proof. intros. unfold StdMap.subscript. now rewrite find_put_same. Qed.

Lemma subscript_put_other :
  forall {V} (d : V) k k' v (m : StdMap.t V),
    k' <> k ->
    StdMap.subscript d k' (StdMap.put k v m) = StdMap.subscript d k' m.
Proof. intros. unfold StdMap.subscript. now rewrite find_put_other. Qed.

Lemma index_insert_comm :
  forall h a b ix,
    index_insert h a (index_insert h b ix)
    = index_insert h b (index_insert h a ix).
Proof.
  intros h a b ix. unfold index_insert.
  destruct (Z.eq_dec (pgid (h a)) (pgid (h b))) as [Epg|Npg].
  - rewrite Epg. rewrite !subscript_put_same, !put_put. f_equal.
    destruct (Z.eq_dec (begin_ (h a)) (begin_ (h b))) as [Ek|Nk].
    + rewrite Ek. rewrite !subscript_put_same, !put_put. f_equal.
      apply set_insert_comm.
    + rewrite !subscript_put_other by congruence.
      apply put_put_comm. exact Nk.
  - rewrite !subscript_put_other by congruence.
    apply put_put_comm. exact Npg.
Qed.

(** X14: the order in which two tokens are added does not matter.  From a
    session on which the count/emptiness check holds (the counter not about
    to wrap to zero), [add_backoff a] then [add_backoff b] and
    [add_backoff b] then [add_backoff a] both return, with the same counter
    and the same nested map. *)
Theorem add_backoff_order_irrelevant :
  forall h s a b,
    count_matches_index s = true ->
    - 2 ^ 31 <= backoff_count s < 2 ^ 31 ->
    backoff_count s <> -1 ->
    exists s2,
      run [Call_add h a; Call_add h b] s = Ret s2
      /\ run [Call_add h b; Call_add h a] s = Ret s2.
Proof.
  intros h s a b Hc Hrange Hm1.
  pose proof (wrap_int_succ_nonzero _ Hrange Hm1) as Hnz.
  assert (Hc1 : forall x,
    count_matches_index
      {| backoff_count := wrap_int (backoff_count s + 1);
         backoffs := index_insert h x (backoffs s) |} = true).
  { intros x. unfold count_matches_index. cbn [backoff_count backoffs].
    rewrite index_insert_not_empty.
    destruct (Z.eqb_spec (wrap_int (backoff_count s + 1)) 0);
      [contradiction | reflexivity]. }
  eexists. split.
  - cbn [run do_call]. rewrite (add_backoff_returns _ _ _ Hc). cbn [snd].
    rewrite (add_backoff_returns _ _ _ (Hc1 a)). cbn [snd]. reflexivity.
  - cbn [run do_call]. rewrite (add_backoff_returns _ _ _ Hc). cbn [snd].
    rewrite (add_backoff_returns _ _ _ (Hc1 b)).
    cbn [snd backoff_count backoffs].
    now rewrite index_insert_comm.
Qed.

Lemma add_backoff_order_irrelevant_witness :
  exists s2,
    run [Call_add heap_disjoint 2; Call_add heap_disjoint 1] Session_new
    = Ret s2
    /\ run [Call_add heap_disjoint 1; Call_add heap_disjoint 2] Session_new
       = Ret s2.
Proof.
  apply (add_backoff_order_irrelevant heap_disjoint Session_new 2 1);
    try reflexivity; try discriminate.
  cbn. split; [discriminate | reflexivity].
Defined.

Lemma run_wf_session_witness :
  wf_session heap_disjoint
    {| backoff_count := 1; backoffs := [(7, [(5, [2])])] |} = true.
Proof.
  apply (run_wf_session heap_disjoint
           [Call_add heap_disjoint 1;
            Call_add (with_state (fun _ => STATE_ACKED) heap_disjoint) 2;
            Call_rm 0 100 heap_disjoint 1]).
  - intros c [<-|[<-|[<-|[]]]]; intros q; split; reflexivity.
  - reflexivity.
  - reflexivity.
Defined.

(** ** A token registered twice *)

(** X16: registering one token twice and then removing it kills the process.
    On a fresh session, [add_backoff b], [add_backoff b] again and then
    [rm_backoff b] under its preconditions: the set held the token once, so
    the removal empties the map while the counter still reads 1, and
    [rm_backoff] dies in its closing assertion. *)
Theorem double_add_then_rm_aborts :
  forall me this h b,
    is_locked_by_me me (lock (h b)) = true ->
    session (h b) = Some this ->
    run [Call_add h b; Call_add h b; Call_rm me this h b] Session_new
    = Abort Assert_count_matches_index.
Proof.
  intros me this h b Hl Hses.
  cbn [run do_call]. rewrite add_backoff_returns by reflexivity. cbn [snd].
  rewrite add_backoff_returns by reflexivity. cbn [snd].
  unfold rm_backoff, ceph_assert. rewrite Hl, Hses, Z.eqb_refl.
  cbn [backoff_count backoffs Session_new].
  unfold index_insert, StdMap.subscript, unlink.
  cbn [backoffs StdMap.find StdMap.put StdSet.insert].
  rewrite ?Z.eqb_refl, ?Z.ltb_irrefl.
  cbn [backoffs StdMap.find StdMap.put StdSet.insert].
  rewrite ?Z.eqb_refl, ?Z.ltb_irrefl.
  cbn [backoffs StdMap.find StdMap.put StdSet.insert StdSet.mem].
  rewrite ?Z.eqb_refl, ?Z.ltb_irrefl.
  cbn [orb StdSet.erase]. rewrite ?Z.eqb_refl.
  cbn [StdSet.empty StdMap.erase andb]. rewrite ?Z.eqb_refl.
  cbn [StdMap.empty StdMap.erase]. rewrite ?Z.eqb_refl.
  unfold StdSet.mem. rewrite ?Z.eqb_refl. reflexivity.
Qed.

Lemma double_add_then_rm_aborts_witness :
  run [Call_add heap_disjoint 1; Call_add heap_disjoint 1;
       Call_rm 0 100 heap_disjoint 1] Session_new
  = Abort Assert_count_matches_index.
Proof.
  apply (double_add_then_rm_aborts 0 100 heap_disjoint 1).
  - reflexivity.
  - reflexivity.
Defined.

(** ** A lone token *)

(** X17: with one token registered on a fresh session, the lookup on its
    shard returns the token exactly at the keys it blocks: at [begin] whatever
    [end] is, and at the keys strictly between [begin] and [end]; [end] itself
    and every key below [begin] get null. *)
Theorem lone_token_lookup :
  forall h b oid,
    exists s1,
      add_backoff h Session_new b
      = ([Lock_backoff_lock; Unlock_backoff_lock], Ret s1)
      /\ have_backoff h s1 (pgid (h b)) oid
         = ([Lock_backoff_lock; Unlock_backoff_lock],
            Ret (if blocks h oid b then Some b else None)).
Proof.
  intros h b oid. eexists. split; [reflexivity|].
  unfold have_backoff, index_insert, count_matches_index. simpl.
  rewrite Z.eqb_refl. simpl. do 2 f_equal.
  unfold lookup_in_pg, blocks, scan. simpl.
  destruct (cmp_sign oid (begin_ (h b))) as [[E Hc]|[[E Hc]|[E Hc]]].
  - rewrite E, Z.ltb_irrefl, Z.eqb_refl. simpl. rewrite cmp_refl.
    reflexivity.
  - destruct (Z.ltb_spec (begin_ (h b)) oid); [lia|]. simpl. rewrite Hc.
    simpl. destruct (Z.eqb_spec (begin_ (h b)) oid); [lia|].
    destruct (Z.leb_spec (begin_ (h b)) oid); [lia|]. reflexivity.
  - destruct (Z.ltb_spec (begin_ (h b)) oid); [|lia]. simpl. rewrite Hc.
    simpl. destruct (Z.eqb_spec (begin_ (h b)) oid); [lia|].
    destruct (Z.leb_spec (begin_ (h b)) oid); [|lia]. simpl.
    now destruct (oid <? end_ (h b)).
Qed.

(** ** A single-key block *)

Lemma put_In :
  forall {V} k (v : V) (m : StdMap.t V) e,
    In e (StdMap.put k v m) -> e = (k, v) \/ In e m.
Proof.
  intros V k v m e. induction m as [|[k0 v0] m IH]; simpl.
  - intros [<-|[]]. now left.
  - destruct (k <? k0); [simpl; intros [<-|H]; auto|].
    destruct (k =? k0); simpl.
    + intros [<-|H]; auto.
    + intros [<-|H]; auto. destruct (IH H); auto.
Qed.

Lemma set_insert_head_min :
  forall b s q t,
    (forall q', In q' s -> b <= q') ->
    StdSet.insert b s = q :: t -> q = b.
Proof.
  intros b [|x s] q t Hmin; simpl.
  - now intros [= <- _].
  - specialize (Hmin x (or_introl eq_refl)).
    destruct (Z.ltb_spec b x); [now intros [= <- _]|].
    destruct (Z.eqb_spec b x); intros [= <- _]; lia.
Qed.

Lemma have_backoff_locked :
  forall h s pgid0 oid,
    backoff_count s <> 0 ->
    count_matches_index s = true ->
    have_backoff h s pgid0 oid
    = ([Lock_backoff_lock; Unlock_backoff_lock],
       Ret match StdMap.find pgid0 (backoffs s) with
           | Some i => lookup_in_pg h oid i
           | None => None
           end).
Proof.
  intros h s pgid0 oid Hnz Hc. unfold have_backoff, ceph_assert.
  rewrite Hc. destruct (Z.eqb_spec (backoff_count s) 0); [contradiction|].
  now destruct (StdMap.find pgid0 (backoffs s)).
Qed.

Lemma add_backoff_wf :
  forall h s b,
    wf_session h s = true ->
    wrap_int (backoff_count s + 1) <> 0 ->
    wf_session h {| backoff_count := wrap_int (backoff_count s + 1);
                    backoffs := index_insert h b (backoffs s) |} = true.
Proof.
  intros h s b Hwf Hnz.
  destruct (wf_session_parts _ _ Hwf) as (Hs & Hne & Hk & _).
  unfold wf_session. cbn [backoffs].
  rewrite (index_insert_sorted _ _ _ Hs), (index_insert_no_empty _ _ _ Hne),
    (index_insert_keyed _ _ _ Hk).
  unfold count_matches_index. cbn [backoff_count backoffs].
  rewrite index_insert_not_empty.
  destruct (Z.eqb_spec (wrap_int (backoff_count s + 1)) 0);
    [contradiction | reflexivity].
Qed.

Lemma lookup_begin_after_insert :
  forall h c1 ix b q t,
    index_sorted ix = true ->
    c1 <> 0 ->
    StdSet.insert b
      (StdMap.subscript [] (begin_ (h b))
         (StdMap.subscript [] (pgid (h b)) ix)) = q :: t ->
    have_backoff h {| backoff_count := c1; backoffs := index_insert h b ix |}
      (pgid (h b)) (begin_ (h b))
    = ([Lock_backoff_lock; Unlock_backoff_lock], Ret (Some q)).
Proof.
  intros h c1 ix b q t Hs Hnz Hins.
  destruct (subscript_pg_sorted _ (pgid (h b)) Hs) as [Hsi Hsp].
  rewrite have_backoff_locked.
  - cbn [backoffs]. unfold index_insert. rewrite find_put_same.
    do 3 f_equal.
    rewrite lookup_in_pg_floor by (apply put_sorted, Hsi).
    rewrite (floor_binding_exact (begin_ (h b))
               (StdSet.insert b
                  (StdMap.subscript [] (begin_ (h b))
                     (StdMap.subscript [] (pgid (h b)) ix))))
      by (apply put_sorted, Hsi || apply find_put_same).
    rewrite cmp_refl, Hins. reflexivity.
  - exact Hnz.
  - unfold count_matches_index. cbn [backoff_count backoffs].
    rewrite index_insert_not_empty.
    destruct (Z.eqb_spec c1 0); [contradiction | reflexivity].
Qed.

Lemma tokens_after_insert :
  forall h s b q,
    In q (concat (map snd (StdMap.subscript [] (pgid (h b))
                             (index_insert h b (backoffs s))))) ->
    q = b \/ In q (tokens_of_pg s (pgid (h b))).
Proof.
  intros h s b q. unfold index_insert, tokens_of_pg.
  rewrite subscript_put_same. intros Hq.
  apply In_tokens in Hq as (k & qs & Hin & Hq).
  apply put_In in Hin as [[= -> ->]|Hin].
  - apply set_insert_In in Hq as [->|Hq]; [now left|]. right.
    unfold StdMap.subscript at 1 in Hq.
    destruct (StdMap.find (begin_ (h b)) _) as [p|] eqn:Hp; [|destruct Hq].
    apply In_tokens. exists (begin_ (h b)), p. split; [|exact Hq].
    apply (find_In _ _ _ Hp).
  - right. apply In_tokens. eauto.
Qed.

(** C3 (as stated, refuted): token 1 blocks [[5, 8)] for shard 7 and is
    registered; token 2, the single key 5 for the same shard, is then added.
    The lookup of key 5 returns token 1, which comes first in the set the two
    share, and the lookup of key 6 returns token 1 as well, not null. *)
Lemma single_key_block_shares_start :
  wf_session heap_shared_start
    {| backoff_count := 1; backoffs := [(7, [(5, [1])])] |} = true
  /\ begin_ (heap_shared_start 2) = end_ (heap_shared_start 2)
  /\ add_backoff heap_shared_start
       {| backoff_count := 1; backoffs := [(7, [(5, [1])])] |} 2
     = ([Lock_backoff_lock; Unlock_backoff_lock],
        Ret {| backoff_count := 2; backoffs := [(7, [(5, [1; 2])])] |})
  /\ have_backoff heap_shared_start
       {| backoff_count := 2; backoffs := [(7, [(5, [1; 2])])] |} 7 5
     = ([Lock_backoff_lock; Unlock_backoff_lock], Ret (Some 1))
  /\ have_backoff heap_shared_start
       {| backoff_count := 2; backoffs := [(7, [(5, [1; 2])])] |} 7 6
     = ([Lock_backoff_lock; Unlock_backoff_lock], Ret (Some 1)).
Proof. repeat split. Qed.

(** C3 (amended): on every well-formed session whose counter is not about to
    wrap to zero, register a token with [begin == end].  The lookup on its
    shard at the key [begin] takes the lock and returns a token of the set
    filed under that start key: the new token itself unless a token with a
    lower address is filed there too.  At every other key the lookup never
    returns the new token, and it returns null there when the shard had no
    token before. *)
Theorem single_key_block_matches_only_its_key :
  forall h s b oid,
    wf_session h s = true ->
    - 2 ^ 31 <= backoff_count s < 2 ^ 31 ->
    backoff_count s <> -1 ->
    begin_ (h b) = end_ (h b) ->
    exists s1 q,
      add_backoff h s b
      = ([Lock_backoff_lock; Unlock_backoff_lock], Ret s1)
      /\ have_backoff h s1 (pgid (h b)) (begin_ (h b))
         = ([Lock_backoff_lock; Unlock_backoff_lock], Ret (Some q))
      /\ StdSet.mem q (bucket h s1 b) = true
      /\ q <= b
      /\ ((forall q', In q' (bucket h s b) -> b <= q') -> q = b)
      /\ (oid <> begin_ (h b) ->
          snd (have_backoff h s1 (pgid (h b)) oid) <> Ret (Some b))
      /\ (tokens_of_pg s (pgid (h b)) = [] ->
          oid <> begin_ (h b) ->
          have_backoff h s1 (pgid (h b)) oid
          = ([Lock_backoff_lock; Unlock_backoff_lock], Ret None)).
Proof.
  intros h s b oid Hwf Hrange Hm1 Hbe.
  destruct (wf_session_parts _ _ Hwf) as (Hs & Hne & Hk & Hc).
  pose proof (wrap_int_succ_nonzero _ Hrange Hm1) as Hnz.
  pose proof (add_backoff_wf h s b Hwf Hnz) as Hwf1.
  set (s1 := {| backoff_count := wrap_int (backoff_count s + 1);
                backoffs := index_insert h b (backoffs s) |}) in *.
  destruct (wf_session_parts _ _ Hwf1) as (Hs1 & _ & Hk1 & Hc1).
  destruct (StdSet.insert b (bucket h s b)) as [|q t] eqn:Hins.
  { pose proof (set_insert_not_empty b (bucket h s b)) as E.
    rewrite Hins in E. discriminate E. }
  assert (Hnot : oid <> begin_ (h b) ->
                 snd (have_backoff h s1 (pgid (h b)) oid) <> Ret (Some b)).
  { intros Hne' Hret.
    destruct (have_backoff_some _ _ _ _ _ Hs1 Hret)
      as (i & k & qs & Hi & Hf & Hscan).
    pose proof (floor_binding_In _ _ _ _ Hf) as [Hin Hle].
    pose proof (scan_some _ _ _ _ _ Hscan) as [Hbq Hr].
    destruct (keyed_find _ _ _ _ _ _ _ Hk1 Hi Hin Hbq) as [_ <-].
    destruct (cmp_sign oid (begin_ (h b))) as [[E _]|[[E _]|[E Hcmp]]];
      [congruence | lia |].
    destruct Hr as [Hr|Hr]; lia. }
  exists s1, q. split; [apply add_backoff_returns, Hc|].
  split; [apply (lookup_begin_after_insert h _ _ b q t Hs Hnz Hins)|].
  split.
  { unfold bucket, s1. cbn [backoffs]. rewrite index_insert_bucket.
    rewrite !Z.eqb_refl. cbn [andb]. fold (bucket h s b). rewrite Hins.
    simpl. now rewrite Z.eqb_refl. }
  split; [apply (set_insert_head_le b _ q t Hins)|].
  split; [intros Hmin; apply (set_insert_head_min b _ q t Hmin Hins)|].
  split; [exact Hnot|].
  intros Hempty Hne'.
  rewrite have_backoff_locked by (exact Hnz || exact Hc1).
  do 2 f_equal.
  destruct (StdMap.find (pgid (h b)) (backoffs s1)) as [i|] eqn:Hi;
    [|reflexivity].
  destruct (lookup_in_pg h oid i) as [q1|] eqn:Hl; [|reflexivity].
  exfalso.
  assert (Hret : snd (have_backoff h s1 (pgid (h b)) oid) = Ret (Some q1)).
  { rewrite have_backoff_locked by (exact Hnz || exact Hc1).
    cbn [snd]. now rewrite Hi, Hl. }
  destruct (have_backoff_some _ _ _ _ _ Hs1 Hret)
    as (i' & k & qs & Hi' & Hf & Hscan).
  pose proof (floor_binding_In _ _ _ _ Hf) as [Hin _].
  pose proof (scan_some _ _ _ _ _ Hscan) as [Hq1 _].
  assert (Hq : q1 = b \/ In q1 (tokens_of_pg s (pgid (h b)))).
  { apply tokens_after_insert. fold (backoffs s1).
    rewrite (subscript_find _ _ _ _ Hi'). apply In_tokens. eauto. }
  destruct Hq as [->|Hq]; [now apply Hnot|].
  rewrite Hempty in Hq. destruct Hq.
Qed.

Lemma single_key_block_matches_only_its_key_witness :
  exists s1 q,
    add_backoff heap_overlap
      {| backoff_count := 1; backoffs := [(7, [(0, [1])])] |} 2
    = ([Lock_backoff_lock; Unlock_backoff_lock], Ret s1)
    /\ have_backoff heap_overlap s1 7 5
       = ([Lock_backoff_lock; Unlock_backoff_lock], Ret (Some q))
    /\ StdSet.mem q (bucket heap_overlap s1 2) = true
    /\ q <= 2
    /\ ((forall q',
           In q' (bucket heap_overlap
                    {| backoff_count := 1; backoffs := [(7, [(0, [1])])] |} 2)
           -> 2 <= q') -> q = 2)
    /\ (3 <> 5 -> snd (have_backoff heap_overlap s1 7 3) <> Ret (Some 2))
    /\ (tokens_of_pg {| backoff_count := 1; backoffs := [(7, [(0, [1])])] |}
          7 = [] ->
        3 <> 5 ->
        have_backoff heap_overlap s1 7 3
        = ([Lock_backoff_lock; Unlock_backoff_lock], Ret None)).
Proof.
  apply (single_key_block_matches_only_its_key heap_overlap
           {| backoff_count := 1; backoffs := [(7, [(0, [1])])] |} 2 3).
  - reflexivity.
  - cbn. split; [discriminate | reflexivity].
  - discriminate.
  - reflexivity.
Defined.
